(** * better-chinadns: the resolution engine of [dns.go], with the client
    options of [client.go] and the helpers of [cmd/chinadns/main.go]

    A shallow embedding of [lookupInServers], [Serve], [normalizeRequest],
    [processReply], [processUntrustedAnswer] and [processTrustedAnswer];
    of [NewClient] and its options; of [runUntilCanceled], [trimLocPrefix]
    and the flag type [resolverAddrs].

    Goroutines are threads of an interleaving transition system: a label says
    which thread takes its next atomic step and what the environment (the
    network behind [LookupFunc], the runtime's ticker, the choice among ready
    [select] cases) contributes to it.  Contexts are cancel flags, channels
    are buffers of bounded size, [*dns.Msg] values are addresses into a store
    of messages. *)

From Stdlib Require Import ZArith Lia Strings.Byte.
From stdpp Require Import base tactics option list sets strings.

Local Open Scope nat_scope.

(** ** Data model *)

(** [net.IP] is a byte slice. *)
Definition IP := list byte.

(** [dns.Question]. *)
Record Question := {
  Name : string;
  Qtype : Z;
  Qclass : Z;
}.

(** The resource records [processReply] tells apart by its type switch:
    [*dns.A], [*dns.AAAA], [*dns.CNAME], and every other record kind. *)
Inductive RR :=
| RR_A (A : IP)
| RR_AAAA (AAAA : IP)
| RR_CNAME (Target : string)
| RR_Other.

(** [dns.Msg] (github.com/miekg/dns): the header bits and sections that this
    package reads or writes.  A message has no interior pointers here, so
    copying a store cell is the deep copy that [Msg.Copy] makes. *)
Record Msg := {
  Id : Z;
  Response : bool;
  Opcode : Z;
  RecursionDesired : bool;
  CheckingDisabled : bool;
  Rcode : Z;
  Compress : bool;
  Questions : list Question;
  Answer : list RR;
  Extra : list RR;
}.

(** [new(dns.Msg)]: the zero value. *)
Definition zeroMsg : Msg :=
  {| Id := 0%Z; Response := false; Opcode := 0%Z; RecursionDesired := false;
     CheckingDisabled := false; Rcode := 0%Z; Compress := false;
     Questions := []; Answer := []; Extra := [] |}.

Definition OpcodeQuery : Z := 0%Z.
Definition RcodeSuccess : Z := 0%Z.

(** [Msg.SetReply] of miekg/dns, on a receiver [m]: it copies the id,
    sets the response bit, copies the opcode and (for a query) the rd and cd
    bits, sets the rcode to success and keeps the first question only.  The
    answer section of the receiver is not touched. *)
Definition SetReply (m request : Msg) : Msg :=
  let query := Z.eqb (Opcode request) OpcodeQuery in
  {| Id := Id request;
     Response := true;
     Opcode := Opcode request;
     RecursionDesired := if query then RecursionDesired request else RecursionDesired m;
     CheckingDisabled := if query then CheckingDisabled request else CheckingDisabled m;
     Rcode := RcodeSuccess;
     Compress := Compress m;
     Questions := match Questions request with
                  | [] => Questions m
                  | q :: _ => [q]
                  end;
     Answer := Answer m;
     Extra := Extra m |}.

Definition setRecursionDesired (b : bool) (m : Msg) : Msg :=
  {| Id := Id m; Response := Response m; Opcode := Opcode m;
     RecursionDesired := b; CheckingDisabled := CheckingDisabled m;
     Rcode := Rcode m; Compress := Compress m; Questions := Questions m;
     Answer := Answer m; Extra := Extra m |}.

Definition setCompress (b : bool) (m : Msg) : Msg :=
  {| Id := Id m; Response := Response m; Opcode := Opcode m;
     RecursionDesired := RecursionDesired m; CheckingDisabled := CheckingDisabled m;
     Rcode := Rcode m; Compress := b; Questions := Questions m;
     Answer := Answer m; Extra := Extra m |}.

(** [Resolver]: an upstream server, known to this file through [GetAddr]. *)
Record Resolver := { GetAddr : string }.

(** The two trust classes; each has its server list, child context, result
    channel and coordinator. *)
Inductive group := Trusted | Untrusted.

Global Instance group_eq_dec : EqDecision group.
Proof. solve_decision. Defined.

Definition flip (g : group) : group :=
  match g with Trusted => Untrusted | Untrusted => Trusted end.

(** The fields of [Server] that [dns.go] reads.  The struct is declared in a
    file of the package that is not part of the sources at hand, so it is
    taken as given: [DomainBlacklist] and [DomainPolluted] stand for their
    [Contain] methods, [IPBlacklist] and [ChinaCIDR] for [Contains], which
    returns a membership bit and an error.  [Delay] is in nanoseconds. *)
Record Server := {
  DomainBlacklist : string -> bool;
  DomainPolluted : string -> bool;
  IPBlacklist : IP -> bool * option string;
  ChinaCIDR : IP -> bool * option string;
  TrustedServers : list Resolver;
  UntrustedServers : list Resolver;
  Delay : Z;
  Bidirectional : bool;
  TCPOnly : bool;
  UDPMaxSize : Z;
}.

Definition servers (s : Server) (g : group) : list Resolver :=
  match g with Trusted => TrustedServers s | Untrusted => UntrustedServers s end.

(** ** The store of messages *)

Definition ptr := nat.

(** [req] is the first cell: [Serve] receives it from the transport. *)
Definition req_ptr : ptr := 0.

Definition deref (h : list Msg) (p : ptr) : Msg := default zeroMsg (h !! p).

Definition alloc (h : list Msg) (m : Msg) : list Msg * ptr := (h ++ [m], length h).

(** [m.Copy()]: a new cell holding what the cell at [p] holds. *)
Definition Copy (h : list Msg) (p : ptr) : list Msg * ptr := alloc h (deref h p).

(** ** The answer classifier *)

(** What a call of [processReply] or of one of the two [process...Answer]
    functions comes to: it returns [reply], or it reaches the [select] of a
    [process...Answer] function and blocks there.  The blocked call waits on
    [other] (the channel handed in; [None] is Go's nil channel, which never
    delivers) and on [ctx.Done()]; a value received from [other] is handed
    to [processReply] with a nil channel and the rule of class [next]; when
    the context ends first the call returns [fallback]. *)
Inductive Proc :=
| Return (reply : ptr)
| Select (other : option group) (next : group) (fallback : ptr).

Definition ProcessFunc := Server -> ptr -> IP -> option group -> Proc.

(** [processUntrustedAnswer], lines 155-184. *)
Definition processUntrustedAnswer : ProcessFunc := fun s rep answer trusted =>
  let '(hit, err) := IPBlacklist s answer in
  if hit then Select trusted Trusted rep
  else
    let '(contain, err) := ChinaCIDR s answer in
    if contain then Return rep
    else Select trusted Trusted rep.

(** [processTrustedAnswer], lines 186-220. *)
Definition processTrustedAnswer : ProcessFunc := fun s rep answer untrusted =>
  let '(hit, err) := IPBlacklist s answer in
  if hit then Select untrusted Untrusted rep
  else if negb (Bidirectional s) then Return rep
  else
    let '(contain, err) := ChinaCIDR s answer in
    if negb contain then Return rep
    else Select untrusted Untrusted rep.

(** The loop of [processReply] over [rep.Answer], at index [i] of a slice of
    length [len]: the first address record is handed to [process]; a CNAME
    that is not the last record is skipped; anything else returns [rep]. *)
Fixpoint processReply_range (s : Server) (rep : ptr) (other : option group)
    (process : ProcessFunc) (len i : nat) (rrs : list RR) : Proc :=
  match rrs with
  | [] => Return rep
  | rr :: rest =>
      match rr with
      | RR_A a => process s rep a other
      | RR_AAAA a => process s rep a other
      | RR_CNAME _ =>
          if i <? len - 1
          then processReply_range s rep other process len (S i) rest
          else Return rep
      | RR_Other => Return rep
      end
  end.

(** [processReply], lines 131-153. *)
Definition processReply (s : Server) (h : list Msg) (rep : ptr)
    (other : option group) (process : ProcessFunc) : Proc :=
  let answers := Answer (deref h rep) in
  processReply_range s rep other process (length answers) 0 answers.

(** The rule that classifies a reply of class [g]. *)
Definition process_of (g : group) : ProcessFunc :=
  match g with
  | Trusted => processTrustedAnswer
  | Untrusted => processUntrustedAnswer
  end.

(** The answer section behind its leading CNAME records. *)
Fixpoint skip_aliases (rrs : list RR) : list RR :=
  match rrs with
  | RR_CNAME _ :: rest => skip_aliases rest
  | _ => rrs
  end.

(** ** Threads and shared state *)

(** Where a query task ([doLookup], lines 30-46) stands. *)
Inductive tpc :=
| TCall                (* line 34: [lookup(req.Copy(), server)] has not returned *)
| TErr                 (* line 36: about to send on [queryNext] *)
| TOk (reply : ptr)    (* line 40: about to try the send on [result] *)
| TCancel              (* line 45: about to call [cancel()] *)
| TExit                (* about to run the deferred [wg.Done()] *)
| TGone.               (* returned *)

Record Task := {
  t_server : Resolver;
  t_pc : tpc;
}.

(** Where a coordinator ([lookupInServers], lines 13-63) stands. *)
Inductive cpc :=
| CEntry               (* started with [go], nothing run yet *)
| CLoop (i : nat)      (* in the [select] of iteration [i] of the loop *)
| CWait                (* in [wg.Wait()] *)
| CReturned.

(** The first success of a coordinator, with the number of queries admitted
    and the number still running when it happened (a record kept for the
    statements about escalation; the program does not read it). *)
Record FirstSuccess := {
  fs_index : nat;
  fs_admitted : nat;
  fs_outstanding : nat;
}.

(** The locals of one run of [lookupInServers].  [ticker_C] is [None] while
    there is no running ticker and otherwise says whether a tick waits in
    [ticker.C]; [queryNext] counts the permits in the channel of that name,
    whose capacity is [len(servers)]; [wg] is the counter of the wait group;
    [tasks] lists the [doLookup] goroutines in the order they were started. *)
Record Coord := {
  c_pc : cpc;
  ticker_C : option bool;
  queryNext : nat;
  wg : nat;
  tasks : list Task;
  first_success : option FirstSuccess;
}.

(** What belongs to one trust class in a run of [Serve]: the cancel flag of
    its child context, its result channel (capacity 1), its coordinator
    ([None] as long as none was started), and the values that were placed on
    the channel and taken from it, in order. *)
Record Race := {
  cancelled : bool;
  result : option ptr;
  coord : option Coord;
  sent : list ptr;
  recvd : list ptr;
}.

(** Where [Serve] (lines 66-122) stands. *)
Inductive spc :=
| SEntry                                   (* lines 69-89 *)
| SNormalize (qName : string)              (* lines 91-95 *)
| SPolluted (qName : string)               (* lines 96-100 *)
| SSelect                                  (* the select of lines 102-108 *)
| SProcess (other : option group) (next : group) (fallback : ptr)
                                           (* the select of a process...Answer call *)
| SCancel (reply : option ptr)             (* line 110 *)
| SWrite (reply : option ptr)              (* lines 112-120 *)
| SReturned.

(** Where the goroutine of lines 85-89 stands. *)
Inductive jpc := JWaitU | JWaitT | JCancel | JGone.

(** One call of a [LookupFunc]: by which class, to which server, with which
    message. *)
Record LookupCall := {
  lc_group : group;
  lc_server : Resolver;
  lc_arg : ptr;
  lc_msg : Msg;
}.

Record State := {
  panicked : bool;              (* a goroutine panicked: the process is gone *)
  heap : list Msg;
  serve : spc;
  root_cancelled : bool;        (* [cancel] of [ctx] was called *)
  joiner : option jpc;
  race_t : Race;
  race_u : Race;
  ctx_made : bool;              (* the three contexts were created *)
  chan_made : bool;             (* the two result channels were created *)
  lookups : list LookupCall;    (* the calls of a [LookupFunc], in order *)
  writes : list (option Msg);   (* the calls of [w.WriteMsg], in order *)
}.

Definition race (g : group) (s : State) : Race :=
  match g with Trusted => race_t s | Untrusted => race_u s end.

(** *** Field updates *)

Definition set_c_pc (pc : cpc) (c : Coord) : Coord :=
  {| c_pc := pc; ticker_C := ticker_C c; queryNext := queryNext c; wg := wg c;
     tasks := tasks c; first_success := first_success c |}.
Definition set_ticker_C (t : option bool) (c : Coord) : Coord :=
  {| c_pc := c_pc c; ticker_C := t; queryNext := queryNext c; wg := wg c;
     tasks := tasks c; first_success := first_success c |}.
Definition set_queryNext (n : nat) (c : Coord) : Coord :=
  {| c_pc := c_pc c; ticker_C := ticker_C c; queryNext := n; wg := wg c;
     tasks := tasks c; first_success := first_success c |}.
Definition set_wg (n : nat) (c : Coord) : Coord :=
  {| c_pc := c_pc c; ticker_C := ticker_C c; queryNext := queryNext c; wg := n;
     tasks := tasks c; first_success := first_success c |}.
Definition set_tasks (ts : list Task) (c : Coord) : Coord :=
  {| c_pc := c_pc c; ticker_C := ticker_C c; queryNext := queryNext c; wg := wg c;
     tasks := ts; first_success := first_success c |}.
Definition set_first_success (f : option FirstSuccess) (c : Coord) : Coord :=
  {| c_pc := c_pc c; ticker_C := ticker_C c; queryNext := queryNext c; wg := wg c;
     tasks := tasks c; first_success := f |}.

Definition set_cancelled (b : bool) (r : Race) : Race :=
  {| cancelled := b; result := result r; coord := coord r; sent := sent r; recvd := recvd r |}.
Definition set_result (v : option ptr) (r : Race) : Race :=
  {| cancelled := cancelled r; result := v; coord := coord r; sent := sent r; recvd := recvd r |}.
Definition set_coord (c : option Coord) (r : Race) : Race :=
  {| cancelled := cancelled r; result := result r; coord := c; sent := sent r; recvd := recvd r |}.
Definition set_sent (l : list ptr) (r : Race) : Race :=
  {| cancelled := cancelled r; result := result r; coord := coord r; sent := l; recvd := recvd r |}.
Definition set_recvd (l : list ptr) (r : Race) : Race :=
  {| cancelled := cancelled r; result := result r; coord := coord r; sent := sent r; recvd := l |}.

Definition set_panicked (b : bool) (s : State) : State :=
  {| panicked := b; heap := heap s; serve := serve s; root_cancelled := root_cancelled s;
     joiner := joiner s; race_t := race_t s; race_u := race_u s; ctx_made := ctx_made s;
     chan_made := chan_made s; lookups := lookups s; writes := writes s |}.
Definition set_heap (h : list Msg) (s : State) : State :=
  {| panicked := panicked s; heap := h; serve := serve s; root_cancelled := root_cancelled s;
     joiner := joiner s; race_t := race_t s; race_u := race_u s; ctx_made := ctx_made s;
     chan_made := chan_made s; lookups := lookups s; writes := writes s |}.
Definition set_serve (pc : spc) (s : State) : State :=
  {| panicked := panicked s; heap := heap s; serve := pc; root_cancelled := root_cancelled s;
     joiner := joiner s; race_t := race_t s; race_u := race_u s; ctx_made := ctx_made s;
     chan_made := chan_made s; lookups := lookups s; writes := writes s |}.
Definition set_root_cancelled (b : bool) (s : State) : State :=
  {| panicked := panicked s; heap := heap s; serve := serve s; root_cancelled := b;
     joiner := joiner s; race_t := race_t s; race_u := race_u s; ctx_made := ctx_made s;
     chan_made := chan_made s; lookups := lookups s; writes := writes s |}.
Definition set_joiner (j : option jpc) (s : State) : State :=
  {| panicked := panicked s; heap := heap s; serve := serve s; root_cancelled := root_cancelled s;
     joiner := j; race_t := race_t s; race_u := race_u s; ctx_made := ctx_made s;
     chan_made := chan_made s; lookups := lookups s; writes := writes s |}.
Definition set_race (g : group) (r : Race) (s : State) : State :=
  {| panicked := panicked s; heap := heap s; serve := serve s; root_cancelled := root_cancelled s;
     joiner := joiner s;
     race_t := match g with Trusted => r | Untrusted => race_t s end;
     race_u := match g with Trusted => race_u s | Untrusted => r end;
     ctx_made := ctx_made s; chan_made := chan_made s; lookups := lookups s;
     writes := writes s |}.
Definition set_ctx_made (b : bool) (s : State) : State :=
  {| panicked := panicked s; heap := heap s; serve := serve s; root_cancelled := root_cancelled s;
     joiner := joiner s; race_t := race_t s; race_u := race_u s; ctx_made := b;
     chan_made := chan_made s; lookups := lookups s; writes := writes s |}.
Definition set_chan_made (b : bool) (s : State) : State :=
  {| panicked := panicked s; heap := heap s; serve := serve s; root_cancelled := root_cancelled s;
     joiner := joiner s; race_t := race_t s; race_u := race_u s; ctx_made := ctx_made s;
     chan_made := b; lookups := lookups s; writes := writes s |}.
Definition set_lookups (l : list LookupCall) (s : State) : State :=
  {| panicked := panicked s; heap := heap s; serve := serve s; root_cancelled := root_cancelled s;
     joiner := joiner s; race_t := race_t s; race_u := race_u s; ctx_made := ctx_made s;
     chan_made := chan_made s; lookups := l; writes := writes s |}.
Definition set_writes (l : list (option Msg)) (s : State) : State :=
  {| panicked := panicked s; heap := heap s; serve := serve s; root_cancelled := root_cancelled s;
     joiner := joiner s; race_t := race_t s; race_u := race_u s; ctx_made := ctx_made s;
     chan_made := chan_made s; lookups := lookups s; writes := l |}.

(** A run of [Serve] on the request [req] begins here. *)
Definition new_race : Race :=
  {| cancelled := false; result := None; coord := None; sent := []; recvd := [] |}.

Definition init (req : Msg) : State :=
  {| panicked := false; heap := [req]; serve := SEntry; root_cancelled := false;
     joiner := None; race_t := new_race; race_u := new_race; ctx_made := false;
     chan_made := false; lookups := []; writes := [] |}.

(** ** The steps of the program *)

(** What [lookup] answers: an error, or a reply that is the very message it
    was called with, or a reply that is a message of its own. *)
Inductive LookupResult :=
| LookupErr
| LookupReplyArg
| LookupReplyNew (m : Msg).

(** Who moves.  The labels of a [select] name the case taken: Go picks any
    ready case.  [LTick] is the runtime delivering a tick into [ticker.C];
    [LLookup] is a [lookup] call returning, with what it left in the message
    it was given ([arg']) and its result. *)
Inductive label :=
| LServe                        (* [Serve]: its next statement *)
| LRecv (g : group)             (* [Serve]: the pending select receives from channel [g] *)
| LDone                         (* [Serve]: the pending select takes [<-ctx.Done()] *)
| LJoin                         (* the goroutine of lines 85-89: its next statement *)
| LEnter (g : group)            (* [lookupInServers]: lines 17-28 *)
| LBreak (g : group)            (* line 51 *)
| LToken (g : group)            (* line 53 *)
| LTicker (g : group)           (* line 56 *)
| LWait (g : group)             (* line 62, and the return *)
| LTick (g : group)
| LLookup (g : group) (i : nat) (arg' : Msg) (r : LookupResult)
| LTask (g : group) (i : nat).  (* [doLookup] number [i]: its next statement *)

(** ** [cmd/chinadns/main.go]: the restart loop *)

Module main_go.

(** [time.Duration] is an [int64] count of nanoseconds; its arithmetic wraps. *)
Definition wrap64 (z : Z) : Z := ((z + 2 ^ 63) mod 2 ^ 64 - 2 ^ 63)%Z.

Definition Millisecond : Z := 1000000%Z.
Definition Second : Z := 1000000000%Z.

(** How a call of [f] ends inside the closure of lines 87-99: with a nil
    error, with an error, or with a panic that the deferred function
    recovers. *)
Inductive Outcome := ReturnsNil | ReturnsErr | Panics.

(** The case that the select of lines 100-104 takes. *)
Inductive Wake := CtxDone | TimeAfter.

Definition minGap : Z := wrap64 (Millisecond * 100).
Definition maxGap : Z := wrap64 (Second * 16).

(** The closure: only a nil error resets [gap]. *)
Definition call (o : Outcome) (gap : Z) : Z :=
  match o with
  | ReturnsNil => minGap
  | ReturnsErr | Panics => gap
  end.

(** Lines 105-108. *)
Definition double (gap : Z) : Z :=
  let gap := wrap64 (gap * 2) in
  if (gap >? maxGap)%Z then maxGap else gap.

(** The loop from its head, with [gap], on what the environment supplies
    for each iteration.  It yields the intervals handed to [time.After], in
    order, and whether the function has returned. *)
Fixpoint loop (gap : Z) (env : list (Outcome * Wake)) : list Z * bool :=
  match env with
  | [] => ([], false)
  | (o, w) :: env =>
      let gap := call o gap in
      match w with
      | CtxDone => ([gap], true)
      | TimeAfter =>
          let '(waits, returned) := loop (double gap) env in
          (gap :: waits, returned)
      end
  end.

(** [runUntilCanceled], lines 82-110. *)
Definition runUntilCanceled (env : list (Outcome * Wake)) : list Z * bool :=
  loop minGap env.

(** [strings.HasPrefix(s, p)], with what follows the prefix. *)
Fixpoint trim_prefix (p s : string) : option string :=
  match p, s with
  | EmptyString, _ => Some s
  | String a p', String b s' => if Ascii.eqb a b then trim_prefix p' s' else None
  | String _ _, EmptyString => None
  end.

(** [strings.SplitN(s, sep, 2)] for a separator that is not empty: [s] cut
    at the first place where [sep] occurs, or [s] alone. *)
Fixpoint SplitN2 (s sep : string) : list string :=
  match trim_prefix sep s with
  | Some rest => [EmptyString; rest]
  | None =>
      match s with
      | EmptyString => [s]
      | String c s' =>
          match SplitN2 s' sep with
          | [a; b] => [String c a; b]
          | _ => [s]
          end
      end
  end.

(** [trimLocPrefix], lines 118-124. *)
Definition trimLocPrefix (s : string) : string :=
  let t := SplitN2 s "gochinadns/" in
  match t with
  | [_; b] => b
  | _ => s
  end.

(** The byte [','], 0x2C. *)
Definition comma : Ascii.ascii :=
  Ascii.Ascii false false true true false true false false.

(** [strings.Contains(s, sub)]. *)
Fixpoint Contains (s sub : string) : bool :=
  match trim_prefix sub s with
  | Some _ => true
  | None =>
      match s with
      | EmptyString => false
      | String _ s' => Contains s' sub
      end
  end.

(** [strings.Split(s, ",")]: the fields between the commas; there is always
    at least one, the empty string for the empty string. *)
Fixpoint Split (s : string) : list string :=
  match s with
  | EmptyString => [EmptyString]
  | String c s' =>
      if Ascii.eqb c comma
      then EmptyString :: Split s'
      else
        match Split s' with
        | field :: fields => String c field :: fields
        | [] => [String c EmptyString]
        end
  end.

(** [strings.Join(fields, ",")]. *)
Fixpoint join_commas (fields : list string) : string :=
  match fields with
  | [] => EmptyString
  | [field] => field
  | field :: fields => field +:+ "," +:+ join_commas fields
  end.

(** [resolverAddrs], lines 48-80.  [net.SplitHostPort] and
    [net.JoinHostPort] belong to the standard library and are taken as
    given; the former yields a host and a port, or an error, known here by
    its text. *)
Section resolverAddrs.

Variable SplitHostPort : string -> (string * string) + string.
Variable JoinHostPort : string -> string -> string.

Definition resolverAddrs := list string.

(** What the loop of [String] writes for one address. *)
Definition written_for (addr : string) : string :=
  match SplitHostPort addr with
  | inl (host, port) => if String.eqb port "53" then host else addr
  | inr _ => addr     (* the port is the empty string *)
  end.

(** The loop of [String] at index [i], with [sb] written so far. *)
Fixpoint String_loop (lastIdx i : Z) (rs : list string) (sb : string) : string :=
  match rs with
  | [] => sb
  | addr :: rest =>
      let sb := sb +:+ written_for addr in
      let sb := if (i <? lastIdx)%Z then sb +:+ "," else sb in
      String_loop lastIdx (i + 1) rest sb
  end.

(** [String], lines 50-65. *)
Definition String_ (rs : resolverAddrs) : string :=
  String_loop (Z.of_nat (length rs) - 1) 0 rs EmptyString.

(** The loop of [Set] over [addrs]: the slice as the loop leaves it, or the
    error it returns. *)
Fixpoint Set_loop (addrs : list string) : list string + string :=
  match addrs with
  | [] => inl []
  | addr :: rest =>
      match SplitHostPort addr with
      | inr err =>
          if Contains err "missing port"
          then
            match Set_loop rest with
            | inl rest' => inl (JoinHostPort addr "53" :: rest')
            | inr e => inr e
            end
          else inr err
      | inl _ =>
          match Set_loop rest with
          | inl rest' => inl (addr :: rest')
          | inr e => inr e
          end
      end
  end.

(** [Set], lines 67-80: the receiver afterwards and the error. *)
Definition Set_ (rs : resolverAddrs) (s : string) : resolverAddrs * option string :=
  match Set_loop (Split s) with
  | inl addrs => (addrs, None)
  | inr err => (rs, Some err)
  end.

(** What [Set] makes of one field. *)
Definition stored (field addr : string) : Prop :=
  match SplitHostPort field with
  | inl _ => addr = field
  | inr err => Contains err "missing port" = true /\ addr = JoinHostPort field "53"
  end.

End resolverAddrs.

End main_go.

(** ** [client.go]: the options of a client *)

Module client_go.

(** [clientOptions], lines 27-32; [Timeout] is a [time.Duration]. *)
Record clientOptions := {
  Timeout : Z;
  UDPMaxSize : Z;
  TCPOnly : bool;
  Mutation : bool;
}.

(** The two fields of [dns.Client] that [NewClient] sets. *)
Record dnsClient := {
  cli_Timeout : Z;
  cli_Net : string;
}.

(** [Client], lines 9-13. *)
Record Client := {
  options : clientOptions;
  UDPCli : dnsClient;
  TCPCli : dnsClient;
}.

(** [newClientOptions], lines 34-38. *)
Definition newClientOptions : clientOptions :=
  {| Timeout := main_go.Second; UDPMaxSize := 0%Z; TCPOnly := false; Mutation := false |}.

(** A [ClientOption] is a function that takes a pointer to the options and
    updates them in place. *)
Definition ClientOption := clientOptions -> clientOptions.

Definition WithTimeout (t : Z) : ClientOption := fun o =>
  {| Timeout := t; UDPMaxSize := UDPMaxSize o; TCPOnly := TCPOnly o; Mutation := Mutation o |}.

Definition WithUDPMaxBytes (max : Z) : ClientOption := fun o =>
  {| Timeout := Timeout o; UDPMaxSize := max; TCPOnly := TCPOnly o; Mutation := Mutation o |}.

Definition WithTCPOnly (b : bool) : ClientOption := fun o =>
  {| Timeout := Timeout o; UDPMaxSize := UDPMaxSize o; TCPOnly := b; Mutation := Mutation o |}.

Definition WithMutation (b : bool) : ClientOption := fun o =>
  {| Timeout := Timeout o; UDPMaxSize := UDPMaxSize o; TCPOnly := TCPOnly o; Mutation := b |}.

(** [NewClient], lines 15-25. *)
Definition NewClient (opts : list ClientOption) : Client :=
  let o := foldl (fun o f => f o) newClientOptions opts in
  {| options := o;
     UDPCli := {| cli_Timeout := Timeout o; cli_Net := "udp" |};
     TCPCli := {| cli_Timeout := Timeout o; cli_Net := "tcp" |} |}.

(** The options this file offers, as data. *)
Inductive Setting :=
| SetTimeout (t : Z)
| SetUDPMaxBytes (max : Z)
| SetTCPOnly (b : bool)
| SetMutation (b : bool).

Definition option_of (x : Setting) : ClientOption :=
  match x with
  | SetTimeout t => WithTimeout t
  | SetUDPMaxBytes max => WithUDPMaxBytes max
  | SetTCPOnly b => WithTCPOnly b
  | SetMutation b => WithMutation b
  end.

(** The last value a list of settings gives to each field. *)
Definition last_Timeout (xs : list Setting) : option Z :=
  last (omap (fun x => match x with SetTimeout t => Some t | _ => None end) xs).
Definition last_UDPMaxBytes (xs : list Setting) : option Z :=
  last (omap (fun x => match x with SetUDPMaxBytes n => Some n | _ => None end) xs).
Definition last_TCPOnly (xs : list Setting) : option bool :=
  last (omap (fun x => match x with SetTCPOnly b => Some b | _ => None end) xs).
Definition last_Mutation (xs : list Setting) : option bool :=
  last (omap (fun x => match x with SetMutation b => Some b | _ => None end) xs).

End client_go.

(** ** Concrete requests, servers and schedules

    Used below to run the program on particular inputs. *)

Definition demo_question : Question :=
  {| Name := "example.com."; Qtype := 1%Z; Qclass := 1%Z |}.

Definition demo_req : Msg :=
  {| Id := 7%Z; Response := false; Opcode := 0%Z; RecursionDesired := false;
     CheckingDisabled := false; Rcode := 0%Z; Compress := false;
     Questions := [demo_question]; Answer := []; Extra := [] |}.

Definition resolver_a : Resolver := {| GetAddr := "119.29.29.29:53" |}.
Definition resolver_b : Resolver := {| GetAddr := "114.114.114.114:53" |}.
Definition resolver_c : Resolver := {| GetAddr := "8.8.8.8:53" |}.

(** Addresses in 36.0.0.0/8 count as domestic. *)
Definition demo_cidr (ip : IP) : bool * option string :=
  match ip with
  | b :: _ => (Byte.eqb b x24, None)
  | [] => (false, None)
  end.

Definition demo_server (blacklist polluted : string -> bool)
    (trusted untrusted : list Resolver) : Server :=
  {| DomainBlacklist := blacklist; DomainPolluted := polluted;
     IPBlacklist := fun _ => (false, None); ChinaCIDR := demo_cidr;
     TrustedServers := trusted; UntrustedServers := untrusted;
     Delay := 100000000%Z; Bidirectional := true; TCPOnly := false;
     UDPMaxSize := 4096%Z |}.

Definition nowhere (_ : string) : bool := false.
Definition everywhere (_ : string) : bool := true.

(** A stand-in for [setUDPSize] that leaves the message alone. *)
Definition keep_size (m : Msg) (_ : Z) : Msg := m.

Definition demo_reply (answer : list RR) : Msg :=
  {| Id := 7%Z; Response := true; Opcode := 0%Z; RecursionDesired := true;
     CheckingDisabled := false; Rcode := 0%Z; Compress := false;
     Questions := [demo_question]; Answer := answer; Extra := [] |}.

Definition ip_domestic : IP := [x24; x00; x00; x01].
Definition ip_foreign : IP := [x01; x02; x03; x04].

(** Servers: the default lists (two untrusted resolvers, no trusted one),
    three untrusted resolvers, none at all, and one resolver of each class
    behind a blacklist, or a polluted list, that holds every name. *)
Definition srv_default : Server :=
  demo_server nowhere nowhere [] [resolver_a; resolver_b].
Definition srv_none : Server := demo_server nowhere nowhere [] [].
Definition srv_blacklist : Server :=
  demo_server everywhere nowhere [resolver_c] [resolver_a].
Definition srv_polluted : Server :=
  demo_server nowhere everywhere [resolver_c] [resolver_a].

(** One resolver of each class; the same with [Delay] at zero, as the flag
    [-y 0] sets it. *)
Definition srv_both : Server :=
  demo_server nowhere nowhere [resolver_c] [resolver_a].
Definition srv_no_delay : Server :=
  {| DomainBlacklist := nowhere; DomainPolluted := nowhere;
     IPBlacklist := fun _ => (false, None); ChinaCIDR := demo_cidr;
     TrustedServers := [resolver_c]; UntrustedServers := [resolver_a];
     Delay := 0%Z; Bidirectional := true; TCPOnly := false;
     UDPMaxSize := 4096%Z |}.

(** The default lists behind an IP blacklist that holds every address, and
    with a UDP size that does not fit 16 bits. *)
Definition srv_ip_blacklist : Server :=
  {| DomainBlacklist := nowhere; DomainPolluted := nowhere;
     IPBlacklist := fun _ => (true, None); ChinaCIDR := demo_cidr;
     TrustedServers := [resolver_c]; UntrustedServers := [resolver_a];
     Delay := 100000000%Z; Bidirectional := true; TCPOnly := false;
     UDPMaxSize := 4096%Z |}.
Definition srv_huge_size : Server :=
  {| DomainBlacklist := nowhere; DomainPolluted := nowhere;
     IPBlacklist := fun _ => (false, None); ChinaCIDR := demo_cidr;
     TrustedServers := []; UntrustedServers := [resolver_a; resolver_b];
     Delay := 100000000%Z; Bidirectional := true; TCPOnly := false;
     UDPMaxSize := 69632%Z |}.

(** A request with an empty question section. *)
Definition req_no_question : Msg :=
  {| Id := 7%Z; Response := false; Opcode := 0%Z; RecursionDesired := false;
     CheckingDisabled := false; Rcode := 0%Z; Compress := false;
     Questions := []; Answer := []; Extra := [] |}.

(** What a [LookupFunc] that does not touch its argument leaves in it. *)
Definition demo_copy : Msg := setRecursionDesired true demo_req.

(** [Serve] up to its select. *)
Definition sched_setup : list label := [LServe; LServe; LServe].

(** Both untrusted resolvers are admitted by the ticker (the permit that
    [queryNext] was seeded with is never taken) and both fail. *)
Definition sched_deadlock : list label :=
  sched_setup ++
  [LEnter Trusted; LEnter Untrusted;
   LTick Untrusted; LTicker Untrusted; LTick Untrusted; LTicker Untrusted;
   LLookup Untrusted 0 demo_copy LookupErr;
   LLookup Untrusted 1 demo_copy LookupErr;
   LTask Untrusted 0; LTask Untrusted 0; LTick Untrusted].

(** The second resolver is admitted by the ticker while the first is still
    out; the first answers with a foreign address, [Serve] takes the reply
    and waits for the trusted class; then the second answers. *)
Definition sched_two_sends : list label :=
  sched_setup ++
  [LEnter Untrusted; LToken Untrusted; LTick Untrusted; LTicker Untrusted;
   LLookup Untrusted 0 demo_copy (LookupReplyNew (demo_reply [RR_A ip_foreign]));
   LTask Untrusted 0; LRecv Untrusted;
   LLookup Untrusted 1 demo_copy (LookupReplyNew (demo_reply [RR_A ip_foreign]));
   LTask Untrusted 1].


(** The first untrusted resolver answers with an alias and a domestic
    address, and the reply is put on the channel. *)
Definition sched_domestic : list label :=
  sched_setup ++
  [LEnter Untrusted; LToken Untrusted;
   LLookup Untrusted 0 demo_copy
     (LookupReplyNew (demo_reply [RR_CNAME "alias.example.com."; RR_A ip_domestic]));
   LTask Untrusted 0].

(** The domestic reply is taken, accepted and written. *)
Definition sched_served : list label :=
  sched_domestic ++ [LRecv Untrusted; LServe; LServe].

(** After the domestic reply the task cancels and returns; the coordinator
    leaves its loop, finds the wait group at zero and returns. *)
Definition sched_coordinator_returns : list label :=
  sched_domestic ++
  [LTask Untrusted 0; LTask Untrusted 0; LBreak Untrusted; LWait Untrusted].

(** The untrusted class is started with no trusted server configured; its
    reply waits on the channel and the trusted coordinator has returned. *)
Definition sched_delivered : list label :=
  sched_domestic ++ [LEnter Trusted].

(** One resolver of each class: the untrusted one answers with a foreign
    address, [Serve] turns to the trusted class, whose answer is domestic;
    in bidirectional mode that is a second suspect verdict. *)
Definition sched_second_verdict : list label :=
  sched_setup ++
  [LEnter Untrusted; LToken Untrusted;
   LLookup Untrusted 0 demo_copy (LookupReplyNew (demo_reply [RR_A ip_foreign]));
   LTask Untrusted 0; LRecv Untrusted;
   LEnter Trusted; LToken Trusted;
   LLookup Trusted 0 demo_copy (LookupReplyNew (demo_reply [RR_A ip_domestic]));
   LTask Trusted 0; LRecv Trusted].


(** With no servers: both coordinators return, the joining goroutine cancels
    the root context, [Serve] takes the cancellation case and writes. *)
Definition sched_no_servers : list label :=
  sched_setup ++
  [LEnter Trusted; LEnter Untrusted; LJoin; LJoin; LJoin; LDone; LServe; LServe].

(** ** Particular inputs for [main.go] *)

(** A stand-in for [net.SplitHostPort] on three addresses, and for
    [net.JoinHostPort] on hosts without a colon. *)
Definition demo_SplitHostPort (addr : string) : (string * string) + string :=
  if String.eqb addr "1.1.1.1" then inr "address 1.1.1.1: missing port in address"%string
  else if String.eqb addr "1.1.1.1:53" then inl ("1.1.1.1", "53")%string
  else if String.eqb addr "8.8.8.8:5353" then inl ("8.8.8.8", "5353")%string
  else inr "address: unexpected"%string.

Definition demo_JoinHostPort (host port : string) : string :=
  host +:+ ":" +:+ port.

(** One failing run, one good run and two failing runs of [f]. *)
Definition demo_runs : list (main_go.Outcome * main_go.Wake) :=
  [(main_go.ReturnsErr, main_go.TimeAfter)] ++
  (main_go.ReturnsNil, main_go.TimeAfter) ::
  [(main_go.Panics, main_go.TimeAfter); (main_go.ReturnsErr, main_go.TimeAfter)].

Section Engine.

(** [setUDPSize] is a helper of the package whose source is not at hand; it
    is taken as given. *)
Variable setUDPSize : Msg -> Z -> Msg.

Variable srv : Server.

(** [normalizeRequest], lines 124-129; [uint16(s.UDPMaxSize)] wraps. *)
Definition normalizeRequest (req : Msg) : Msg :=
  let req := setRecursionDesired true req in
  if negb (TCPOnly srv) then setUDPSize req (UDPMaxSize srv mod 65536)%Z else req.

(** [<-c.Done()] is ready for the child context of class [g]. *)
Definition done (g : group) (s : State) : bool :=
  cancelled (race g s) || root_cancelled s.

Definition panic (s : State) : State := set_panicked true s.

(** The [cancel] function of the child context of class [g]. *)
Definition cancel (g : group) (s : State) : State :=
  set_race g (set_cancelled true (race g s)) s.

(** [go lookupInServers(...)] for class [g]. *)
Definition new_coord : Coord :=
  {| c_pc := CEntry; ticker_C := None; queryNext := 0; wg := 0; tasks := [];
     first_success := None |}.

Definition spawn (g : group) (s : State) : State :=
  set_race g (set_coord (Some new_coord) (race g s)) s.

(** [w.WriteMsg(reply)]. *)
Definition WriteMsg (reply : option ptr) (s : State) : State :=
  set_writes (writes s ++ [deref (heap s) <$> reply]) s.

(** [Serve] takes [rep] from channel [g]. *)
Definition receive (g : group) (rep : ptr) (s : State) : State :=
  let r := race g s in
  set_race g (set_recvd (recvd r ++ [rep]) (set_result None r)) s.

(** Where [Serve] stands once a call of [processReply] came to [o]. *)
Definition after (o : Proc) : spc :=
  match o with
  | Return reply => SCancel (Some reply)
  | Select other next fallback => SProcess other next fallback
  end.

(** The statements of [Serve] outside its selects. *)
Definition Serve_step (s : State) : option State :=
  match serve s with
  | SEntry =>
      match Questions (deref (heap s) req_ptr) with
      | [] => Some (panic s)
      | q :: _ =>
          let qName := Name q in
          if DomainBlacklist srv qName then
            let '(h, reply) := alloc (heap s) zeroMsg in
            let h := <[reply := SetReply (deref h reply) (deref h req_ptr)]> h in
            Some (set_serve SReturned (WriteMsg (Some reply) (set_heap h s)))
          else
            Some (set_serve (SNormalize qName)
                    (set_joiner (Some JWaitU) (set_ctx_made true s)))
      end
  | SNormalize qName =>
      let h := <[req_ptr := normalizeRequest (deref (heap s) req_ptr)]> (heap s) in
      Some (set_serve (SPolluted qName)
              (spawn Trusted (set_chan_made true (set_heap h s))))
  | SPolluted qName =>
      if negb (DomainPolluted srv qName)
      then Some (set_serve SSelect (spawn Untrusted s))
      else Some (set_serve SSelect (cancel Untrusted s))
  | SCancel reply =>
      Some (set_serve (SWrite reply) (set_root_cancelled true s))
  | SWrite reply =>
      let '(h, reply) :=
        match reply with
        | Some p => (<[p := setCompress true (deref (heap s) p)]> (heap s), Some p)
        | None =>
            let '(h, p) := alloc (heap s) zeroMsg in
            (<[p := SetReply (deref h p) (deref h req_ptr)]> h, Some p)
        end in
      Some (set_serve SReturned (WriteMsg reply (set_heap h s)))
  | _ => None
  end.

(** A receive case of the select [Serve] is blocked in. *)
Definition Serve_recv (g : group) (s : State) : option State :=
  match serve s with
  | SSelect =>
      match result (race g s) with
      | Some rep =>
          let o :=
            match g with
            | Untrusted => processReply srv (heap s) rep (Some Trusted) processUntrustedAnswer
            | Trusted => processReply srv (heap s) rep (Some Untrusted) processTrustedAnswer
            end in
          Some (set_serve (after o) (receive g rep s))
      | None => None
      end
  | SProcess other next fallback =>
      if decide (other = Some g) then
        match result (race g s) with
        | Some rep =>
            let o := processReply srv (heap s) rep None (process_of next) in
            Some (set_serve (after o) (receive g rep s))
        | None => None
        end
      else None
  | _ => None
  end.

(** The [<-ctx.Done()] case of the select [Serve] is blocked in. *)
Definition Serve_done (s : State) : option State :=
  if root_cancelled s then
    match serve s with
    | SSelect => Some (set_serve (SCancel None) s)
    | SProcess other next fallback => Some (set_serve (SCancel (Some fallback)) s)
    | _ => None
    end
  else None.

(** The goroutine of lines 85-89. *)
Definition joiner_step (s : State) : option State :=
  match joiner s with
  | Some JWaitU => if done Untrusted s then Some (set_joiner (Some JWaitT) s) else None
  | Some JWaitT => if done Trusted s then Some (set_joiner (Some JCancel) s) else None
  | Some JCancel => Some (set_joiner (Some JGone) (set_root_cancelled true s))
  | _ => None
  end.

Definition put_coord (g : group) (c : Coord) (s : State) : State :=
  set_race g (set_coord (Some c) (race g s)) s.

(** After the body of iteration [i]: the next iteration, or [wg.Wait()]. *)
Definition next_pc (g : group) (i : nat) : cpc :=
  if S i <? length (servers srv g) then CLoop (S i) else CWait.

(** [wg.Add(1); go doLookup(server)]. *)
Definition launch (g : group) (i : nat) (server : Resolver) (c : Coord) : Coord :=
  set_c_pc (next_pc g i)
    (set_tasks (tasks c ++ [{| t_server := server; t_pc := TCall |}])
       (set_wg (S (wg c)) c)).

(** Lines 17-28: the deferred [cancel] runs at the return for an empty list;
    [time.NewTicker] panics unless the interval is positive; [queryNext] gets
    its first permit. *)
Definition lookupInServers_enter (g : group) (s : State) : option State :=
  c ← coord (race g s);
  match c_pc c with
  | CEntry =>
      match servers srv g with
      | [] => Some (cancel g (put_coord g (set_c_pc CReturned c) s))
      | _ :: _ =>
          if (Delay srv <=? 0)%Z then Some (panic s)
          else Some (put_coord g
                       (set_c_pc (CLoop 0) (set_queryNext 1 (set_ticker_C (Some false) c))) s)
      end
  | _ => None
  end.

(** Line 51. *)
Definition lookupInServers_break (g : group) (s : State) : option State :=
  c ← coord (race g s);
  match c_pc c with
  | CLoop i => if done g s then Some (put_coord g (set_c_pc CWait c) s) else None
  | _ => None
  end.

(** Lines 53-55. *)
Definition lookupInServers_token (g : group) (s : State) : option State :=
  c ← coord (race g s);
  match c_pc c with
  | CLoop i =>
      server ← servers srv g !! i;
      match queryNext c with
      | S n => Some (put_coord g (launch g i server (set_queryNext n c)) s)
      | O => None
      end
  | _ => None
  end.

(** Lines 56-58. *)
Definition lookupInServers_ticker (g : group) (s : State) : option State :=
  c ← coord (race g s);
  match c_pc c with
  | CLoop i =>
      server ← servers srv g !! i;
      match ticker_C c with
      | Some true => Some (put_coord g (launch g i server (set_ticker_C (Some false) c)) s)
      | _ => None
      end
  | _ => None
  end.

(** Line 62 and the return, where [ticker.Stop()] and [cancel()] run. *)
Definition lookupInServers_wait (g : group) (s : State) : option State :=
  c ← coord (race g s);
  match c_pc c with
  | CWait =>
      match wg c with
      | O => Some (cancel g (put_coord g (set_c_pc CReturned (set_ticker_C None c)) s))
      | S _ => None
      end
  | _ => None
  end.

(** A tick arrives in [ticker.C], which holds one; the runtime drops a tick
    that finds the channel full, which changes nothing. *)
Definition tick (g : group) (s : State) : option State :=
  c ← coord (race g s);
  match ticker_C c with
  | Some false => Some (put_coord g (set_ticker_C (Some true) c) s)
  | _ => None
  end.

Definition set_task (i : nat) (pc : tpc) (c : Coord) : Coord :=
  match tasks c !! i with
  | Some t => set_tasks (<[i := {| t_server := t_server t; t_pc := pc |}]> (tasks c)) c
  | None => c
  end.

(** Task [i] is the first of its coordinator to get a reply. *)
Definition succeed (i : nat) (c : Coord) : Coord :=
  match first_success c with
  | Some _ => c
  | None =>
      set_first_success
        (Some {| fs_index := i; fs_admitted := length (tasks c); fs_outstanding := wg c |}) c
  end.

(** Line 34: [lookup(req.Copy(), server)] returns.  The callee had the copy
    and nothing else of the store in its hands. *)
Definition doLookup_lookup (g : group) (i : nat) (arg' : Msg) (r : LookupResult)
    (s : State) : option State :=
  c ← coord (race g s);
  t ← tasks c !! i;
  match t_pc t with
  | TCall =>
      let '(h, arg) := Copy (heap s) req_ptr in
      let call := {| lc_group := g; lc_server := t_server t; lc_arg := arg;
                     lc_msg := deref h arg |} in
      let h := <[arg := arg']> h in
      let s := set_lookups (lookups s ++ [call]) s in
      match r with
      | LookupErr =>
          Some (put_coord g (set_task i TErr c) (set_heap h s))
      | LookupReplyArg =>
          Some (put_coord g (succeed i (set_task i (TOk arg) c)) (set_heap h s))
      | LookupReplyNew m =>
          let '(h, reply) := alloc h m in
          Some (put_coord g (succeed i (set_task i (TOk reply) c)) (set_heap h s))
      end
  | _ => None
  end.

(** The statements of [doLookup] after the call of [lookup]. *)
Definition doLookup_step (g : group) (i : nat) (s : State) : option State :=
  c ← coord (race g s);
  t ← tasks c !! i;
  match t_pc t with
  | TErr =>
      (* [queryNext <- struct{}{}] blocks while the channel is full *)
      if queryNext c <? length (servers srv g)
      then Some (put_coord g (set_task i TExit (set_queryNext (S (queryNext c)) c)) s)
      else None
  | TOk reply =>
      (* [select { case result <- reply: ... default: }] *)
      let r := race g s in
      let s :=
        match result r with
        | None => set_race g (set_sent (sent r ++ [reply]) (set_result (Some reply) r)) s
        | Some _ => s
        end in
      Some (put_coord g (set_task i TCancel c) s)
  | TCancel => Some (cancel g (put_coord g (set_task i TExit c) s))
  | TExit =>
      (* [wg.Done()] panics on a counter that would go negative *)
      match wg c with
      | S n => Some (put_coord g (set_task i TGone (set_wg n c)) s)
      | O => Some (panic s)
      end
  | _ => None
  end.

(** One step of the program.  Nothing runs once a goroutine has panicked. *)
Definition step (l : label) (s : State) : option State :=
  if panicked s then None
  else
    match l with
    | LServe => Serve_step s
    | LRecv g => Serve_recv g s
    | LDone => Serve_done s
    | LJoin => joiner_step s
    | LEnter g => lookupInServers_enter g s
    | LBreak g => lookupInServers_break g s
    | LToken g => lookupInServers_token g s
    | LTicker g => lookupInServers_ticker g s
    | LWait g => lookupInServers_wait g s
    | LTick g => tick g s
    | LLookup g i arg' r => doLookup_lookup g i arg' r s
    | LTask g i => doLookup_step g i s
    end.

(** A schedule, run from [s]. *)
Fixpoint run (ls : list label) (s : State) : option State :=
  match ls with
  | [] => Some s
  | l :: ls =>
      match step l s with
      | Some s' => run ls s'
      | None => None
      end
  end.

(** The states a run of [Serve] on [req] can be in. *)
Definition reachable (req : Msg) (s : State) : Prop :=
  exists ls, run ls (init req) = Some s.


(** ** Invariants *)

(** The name of the first question. *)
Definition qName_of (req : Msg) : option string := Name <$> head (Questions req).

(** The address [processReply] hands to [process], if it hands one. *)
Fixpoint representative (len i : nat) (rrs : list RR) : option IP :=
  match rrs with
  | [] => None
  | RR_A a :: _ => Some a
  | RR_AAAA a :: _ => Some a
  | RR_CNAME _ :: rest => if i <? len - 1 then representative len (S i) rest else None
  | RR_Other :: _ => None
  end.

Definition representative_of (m : Msg) : option IP :=
  representative (length (Answer m)) 0 (Answer m).

(** [Serve] and the values it took from the result channels. *)
Definition inv_serve (s : State) : Prop :=
  match serve s with
  | SEntry | SNormalize _ | SPolluted _ | SSelect =>
      writes s = [] /\ recvd (race_t s) = [] /\ recvd (race_u s) = []
  | SProcess other next fallback =>
      writes s = [] /\ recvd (race (flip next) s) = [fallback] /\
      match other with
      | Some g => g = next /\ recvd (race next s) = []
      | None => length (recvd (race next s)) = 1
      end
  | SCancel reply | SWrite reply =>
      writes s = [] /\
      length (recvd (race_t s)) <= 1 /\ length (recvd (race_u s)) <= 1 /\
      match reply with
      | Some p => p ∈ recvd (race_t s) ++ recvd (race_u s)
      | None => recvd (race_t s) = [] /\ recvd (race_u s) = []
      end
  | SReturned =>
      (exists m, writes s = [Some m]) /\
      length (recvd (race_t s)) <= 1 /\ length (recvd (race_u s)) <= 1
  end.

(** A result channel is a queue of capacity one. *)
Definition inv_chan (g : group) (s : State) : Prop :=
  sent (race g s) = recvd (race g s) ++ option_list (result (race g s)).

(** The number of tasks that have not returned. *)
Definition running (t : Task) : nat :=
  match t_pc t with TGone => 0 | _ => 1 end.

Definition outstanding (ts : list Task) : nat := sum_list (running <$> ts).

(** A coordinator: its tasks are for a prefix of the server list, in order;
    the wait group counts no more than the tasks started; the record of the
    first success is within those bounds. *)
Definition coord_ok (g : group) (c : Coord) : Prop :=
  let n := length (servers srv g) in
  t_server <$> tasks c = take (length (tasks c)) (servers srv g) /\
  length (tasks c) <= n /\
  wg c <= length (tasks c) /\
  match c_pc c with
  | CEntry => tasks c = []
  | CLoop i => length (tasks c) = i /\ i < n
  | _ => True
  end /\
  match first_success c with
  | Some fs =>
      fs_index fs < fs_admitted fs /\ fs_admitted fs <= length (tasks c) /\
      fs_outstanding fs <= fs_admitted fs
  | None => True
  end.

Definition inv_coord (g : group) (s : State) : Prop :=
  match coord (race g s) with
  | None => True
  | Some c => coord_ok g c
  end.

(** The request as the racing goroutines see it. *)
Definition request_of (req : Msg) (s : State) : Msg :=
  if chan_made s then normalizeRequest req else req.

(** A pointer to a reply: a cell of the store other than the request's. *)
Definition ptr_ok (n : nat) (p : ptr) : Prop := 0 < p < n.

Definition task_ok (n : nat) (t : Task) : Prop :=
  match t_pc t with
  | TOk reply => ptr_ok n reply
  | _ => True
  end.

Definition race_ok (n : nat) (r : Race) : Prop :=
  Forall (ptr_ok n) (option_list (result r)) /\
  Forall (ptr_ok n) (recvd r) /\
  match coord r with
  | Some c => Forall (task_ok n) (tasks c)
  | None => True
  end.

Definition spc_ptrs (pc : spc) : list ptr :=
  match pc with
  | SProcess _ _ fallback => [fallback]
  | SCancel (Some p) | SWrite (Some p) => [p]
  | _ => []
  end.

(** Every pointer held by a goroutine or a channel, and every pointer a
    [LookupFunc] was called with, is such a pointer into a store of [n]
    cells. *)
Definition ptrs_ok (n : nat) (s : State) : Prop :=
  Forall (ptr_ok n) (spc_ptrs (serve s)) /\
  race_ok n (race_t s) /\ race_ok n (race_u s) /\
  Forall (ptr_ok n) (lc_arg <$> lookups s).

(** The store: the request sits in the first cell, as [Serve] left it; no
    other pointer in the program leads there; every call of a [LookupFunc]
    was made on a cell of its own that held a copy of the request. *)
Definition inv_heap (req : Msg) (s : State) : Prop :=
  heap s !! req_ptr = Some (request_of req s) /\
  ptrs_ok (length (heap s)) s /\
  Forall (fun call => lc_msg call = normalizeRequest req) (lookups s) /\
  NoDup (lc_arg <$> lookups s) /\
  match serve s with
  | SEntry | SNormalize _ =>
      chan_made s = false /\ coord (race_t s) = None /\ coord (race_u s) = None
  | SReturned =>
      chan_made s = true \/ (coord (race_t s) = None /\ coord (race_u s) = None)
  | _ => chan_made s = true
  end.

(** What was started for a request whose first question is for [qName]:
    nothing before the check against the blacklist and nothing ever after a
    hit; otherwise the trusted coordinator, and the untrusted one unless the
    name is polluted, in which case its context is cancelled instead. *)
Definition started (qName : string) (s : State) : Prop :=
  DomainBlacklist srv qName = false /\
  is_Some (coord (race_t s)) /\
  if DomainPolluted srv qName
  then coord (race_u s) = None /\ cancelled (race_u s) = true
  else is_Some (coord (race_u s)).

Definition inv_started (qName : string) (req : Msg) (s : State) : Prop :=
  match serve s with
  | SEntry => s = init req
  | SNormalize qn =>
      qn = qName /\ DomainBlacklist srv qName = false /\
      coord (race_t s) = None /\ coord (race_u s) = None /\
      cancelled (race_u s) = false
  | SPolluted qn =>
      qn = qName /\ DomainBlacklist srv qName = false /\
      is_Some (coord (race_t s)) /\ coord (race_u s) = None /\
      cancelled (race_u s) = false
  | SReturned =>
      (DomainBlacklist srv qName = true /\
       exists h, s = set_serve SReturned
                      (set_writes [Some (SetReply zeroMsg req)]
                         (set_heap h (init req)))) \/
      started qName s
  | _ => started qName s
  end.

(** Every call of a [LookupFunc] was made for a coordinator. *)
Definition inv_lookups (s : State) : Prop :=
  Forall (fun call => is_Some (coord (race (lc_group call) s))) (lookups s).

Definition inv_setup (qName : string) (req : Msg) (s : State) : Prop :=
  inv_started qName req s /\ inv_lookups s.

(** With no servers at all: a coordinator has no ticker and no tasks, and it
    has either not run yet or returned and cancelled its context. *)
Definition idle (g : group) (s : State) : Prop :=
  result (race g s) = None /\
  match coord (race g s) with
  | None => True
  | Some c =>
      tasks c = [] /\ ticker_C c = None /\
      (c_pc c = CEntry \/ (c_pc c = CReturned /\ cancelled (race g s) = true))
  end.

Definition inv_empty (req : Msg) (s : State) : Prop :=
  panicked s = false /\ idle Trusted s /\ idle Untrusted s /\
  (joiner s = Some JGone -> root_cancelled s = true) /\
  match serve s with
  | SEntry => s = init req
  | SNormalize _ =>
      is_Some (joiner s) /\ coord (race_t s) = None /\ coord (race_u s) = None /\
      writes s = [] /\ heap s = [req]
  | SPolluted _ =>
      is_Some (joiner s) /\ is_Some (coord (race_t s)) /\ coord (race_u s) = None /\
      writes s = [] /\ heap s = [normalizeRequest req]
  | SSelect =>
      is_Some (joiner s) /\ is_Some (coord (race_t s)) /\
      (cancelled (race_u s) = true \/ is_Some (coord (race_u s))) /\
      writes s = [] /\ heap s = [normalizeRequest req]
  | SProcess _ _ _ => False
  | SCancel reply | SWrite reply =>
      reply = None /\ writes s = [] /\ heap s = [normalizeRequest req]
  | SReturned =>
      writes s = [Some (SetReply zeroMsg (normalizeRequest req))]
  end.

(** The wait group counts the tasks that have not returned. *)
Definition inv_wg (g : group) (s : State) : Prop :=
  match coord (race g s) with
  | None => True
  | Some c => wg c = outstanding (tasks c)
  end.

(** Without a positive [Delay] no coordinator gets past [time.NewTicker]:
    it has no task and nothing is ever sent. *)
Definition no_ticker (g : group) (s : State) : Prop :=
  sent (race g s) = [] /\
  match coord (race g s) with
  | None => True
  | Some c => tasks c = [] /\ (c_pc c = CEntry \/ c_pc c = CReturned)
  end.

(** Why the process may have panicked: a request with no question, indexed
    at line 72, or an interval that [time.NewTicker] refuses. *)
Definition inv_panic (req : Msg) (s : State) : Prop :=
  (panicked s = true ->
   Questions req = [] \/
   ((Delay srv <=? 0)%Z = true /\ exists g, servers srv g <> [])) /\
  ((Delay srv <=? 0)%Z = true ->
   lookups s = [] /\ no_ticker Trusted s /\ no_ticker Untrusted s).

(** Whoever put a value on a result channel has cancelled the context of
    its class or is about to (line 45). *)
Definition inv_sender (g : group) (s : State) : Prop :=
  sent (race g s) = [] \/ cancelled (race g s) = true \/
  exists c i t, coord (race g s) = Some c /\ tasks c !! i = Some t /\ t_pc t = TCancel.

(** The goroutine of lines 85-89 runs from the setup on, and it ends by
    cancelling the root context. *)
Definition inv_joiner (s : State) : Prop :=
  (joiner s = Some JGone -> root_cancelled s = true) /\
  match serve s with
  | SEntry | SReturned => True
  | _ => is_Some (joiner s)
  end.

(** A coordinator that has not run has no ticker and an idle wait group;
    one that has returned has seen its wait group at zero, has stopped its
    ticker and has cancelled its context (the deferred calls of lines 17
    and 25). *)
Definition inv_returned (g : group) (s : State) : Prop :=
  match coord (race g s) with
  | None => True
  | Some c =>
      match c_pc c with
      | CEntry => ticker_C c = None /\ wg c = 0
      | CReturned => ticker_C c = None /\ wg c = 0 /\ cancelled (race g s) = true
      | _ => True
      end
  end.

Global Instance tpc_eq_dec : EqDecision tpc.
Proof. solve_decision. Defined.

(** The servers of the tasks whose call of [lookup] has returned. *)
Definition called (ts : list Task) : list Resolver :=
  t_server <$> filter (fun t => t_pc t <> TCall) ts.

(** The servers class [g] has called, in the order the calls returned. *)
Definition lookups_of (g : group) (s : State) : list Resolver :=
  lc_server <$> filter (fun call => lc_group call = g) (lookups s).

Definition inv_calls (g : group) (s : State) : Prop :=
  match coord (race g s) with
  | None => lookups_of g s = []
  | Some c => lookups_of g s ≡ₚ called (tasks c)
  end.

(** What [Serve] has written once it has returned: the empty reply to the
    request, or a reply it took from a result channel, with [Compress] set. *)
Definition written (req : Msg) (s : State) (m : Msg) : Prop :=
  m = SetReply zeroMsg (request_of req s) \/
  exists p, p ∈ recvd (race_t s) ++ recvd (race_u s) /\
    heap s !! p = Some m /\ Compress m = true.

Definition inv_written (req : Msg) (s : State) : Prop :=
  serve s = SReturned -> exists m, writes s = [Some m] /\ written req s m.

(** The statements a thread still has before it, at most: for a task, for
    the ticker, for a coordinator of class [g], for the goroutine of lines
    85-89 and for [Serve], which also pays for what it is going to start. *)
Definition task_work (t : Task) : nat :=
  match t_pc t with
  | TCall => 5
  | TOk _ => 3
  | TErr | TCancel => 2
  | TExit => 1
  | TGone => 0
  end.

Definition ticker_work (c : Coord) : nat :=
  match ticker_C c with Some false => 1 | _ => 0 end.

Definition coord_work (g : group) (c : Coord) : nat :=
  let n := length (servers srv g) in
  match c_pc c with
  | CEntry => 7 * n + 4
  | CLoop i => 7 * (n - i) + 2
  | CWait => 1
  | CReturned => 0
  end + ticker_work c + sum_list (task_work <$> tasks c).

Definition race_work (g : group) (s : State) : nat :=
  match coord (race g s) with
  | None => 0
  | Some c => coord_work g c
  end.

Definition joiner_work (s : State) : nat :=
  match joiner s with
  | None => 0
  | Some JWaitU => 3
  | Some JWaitT => 2
  | Some JCancel => 1
  | Some JGone => 0
  end.

Definition serve_work (s : State) : nat :=
  let spawn_work g := 7 * length (servers srv g) + 5 in
  match serve s with
  | SEntry => 12 + spawn_work Trusted + spawn_work Untrusted
  | SNormalize _ => 7 + spawn_work Trusted + spawn_work Untrusted
  | SPolluted _ => 6 + spawn_work Untrusted
  | SSelect => 5
  | SProcess (Some _) _ _ => 4
  | SProcess None _ _ => 3
  | SCancel _ => 2
  | SWrite _ => 1
  | SReturned => 0
  end.

Definition work (s : State) : nat :=
  if panicked s then 0
  else 1 + serve_work s + joiner_work s + race_work Trusted s + race_work Untrusted s.

(** From its loop on, and until it returns, a coordinator has a ticker. *)
Definition inv_ticker (g : group) (s : State) : Prop :=
  match coord (race g s) with
  | None => True
  | Some c =>
      match c_pc c with
      | CLoop _ | CWait => is_Some (ticker_C c)
      | _ => True
      end
  end.

(** The jam of [queryNext]: the coordinator of class [g] waits in
    [wg.Wait()] with its context still live, nothing was delivered, and every
    [doLookup] that has not returned stands before the send of line 36 with
    the channel full. *)
Definition jammed (g : group) (s : State) : Prop :=
  exists c, coord (race g s) = Some c /\
    cancelled (race g s) = false /\ root_cancelled s = false /\
    sent (race g s) = [] /\
    c_pc c = CWait /\ 0 < wg c /\
    length (servers srv g) <= queryNext c /\
    Forall (fun t => t_pc t = TGone \/ t_pc t = TErr) (tasks c) /\
    exists i t, tasks c !! i = Some t /\ t_pc t = TErr.

(** What is left to do when there are no servers: every step lowers it. *)
Definition serve_rank (pc : spc) : nat :=
  match pc with
  | SEntry => 6
  | SNormalize _ => 5
  | SPolluted _ => 4
  | SSelect | SProcess _ _ _ => 3
  | SCancel _ => 2
  | SWrite _ => 1
  | SReturned => 0
  end.

Definition joiner_rank (j : option jpc) : nat :=
  match j with
  | None | Some JWaitU => 3
  | Some JWaitT => 2
  | Some JCancel => 1
  | Some JGone => 0
  end.

Definition coord_rank (c : option Coord) : nat :=
  match c with
  | None => 1
  | Some c => match c_pc c with CReturned => 0 | _ => 1 end
  end.

Definition rank (s : State) : nat :=
  serve_rank (serve s) + joiner_rank (joiner s) +
  coord_rank (coord (race_t s)) + coord_rank (coord (race_u s)).

(** ** Schedules and reachable states *)

Lemma run_app ls1 ls2 s : run (ls1 ++ ls2) s = run ls1 s ≫= run ls2.
Proof.
  revert s. induction ls1 as [|l ls1 IH]; intros s; simpl; [done|].
  destruct (step l s); simpl; auto.
Qed.

Lemma reachable_init req : reachable req (init req).
Proof. by exists []. Qed.

Lemma reachable_step req l s s' :
  reachable req s -> step l s = Some s' -> reachable req s'.
Proof.
  intros [ls Hls] Hstep. exists (ls ++ [l]).
  rewrite run_app, Hls. simpl. by rewrite Hstep.
Qed.

Lemma reachable_run req ls s s' :
  reachable req s -> run ls s = Some s' -> reachable req s'.
Proof.
  intros [ls0 Hls0] Hrun. exists (ls0 ++ ls).
  rewrite run_app, Hls0. exact Hrun.
Qed.

(** A property of the initial state that every step keeps holds in every
    reachable state. *)
Lemma reachable_invariant req (P : State -> Prop) :
  P (init req) ->
  (forall l s s', reachable req s -> P s -> step l s = Some s' -> P s') ->
  forall s, reachable req s -> P s.
Proof.
  intros Hinit Hstep s [ls Hls]. revert s Hls.
  induction ls as [|l ls IH] using rev_ind; intros s Hls.
  - simpl in Hls. by simplify_eq.
  - rewrite run_app in Hls. destruct (run ls (init req)) as [s0|] eqn:Hs0; [|done].
    simpl in Hls. destruct (step l s0) eqn:Hl; [|done]. simplify_eq.
    eapply Hstep; [| |exact Hl]; [by exists ls|by apply IH].
Qed.

(** Case analysis on a step: one goal per statement of the program. *)
Ltac step_cases H :=
  unfold step in H;
  destruct (panicked _) eqn:?; [discriminate|];
  match type of H with
  | match ?l with _ => _ end = _ => destruct l
  end;
  unfold Serve_step, Serve_recv, Serve_done, joiner_step, lookupInServers_enter,
    lookupInServers_break, lookupInServers_token, lookupInServers_ticker,
    lookupInServers_wait, tick, doLookup_lookup, doLookup_step in H;
  repeat first [progress simplify_option_eq | case_match]; simplify_eq.

(** ** The classifier *)

Lemma processReply_range_representative s rep other process len i rrs :
  processReply_range s rep other process len i rrs =
  match representative len i rrs with
  | Some ip => process s rep ip other
  | None => Return rep
  end.
Proof.
  revert i. induction rrs as [|rr rrs IH]; intros i; simpl; [done|].
  destruct rr; simpl; try done. by case_match.
Qed.

Lemma process_of_cases g s rep ip other :
  process_of g s rep ip other = Return rep \/
  process_of g s rep ip other = Select other (flip g) rep.
Proof.
  destruct g; simpl; unfold processTrustedAnswer, processUntrustedAnswer;
    repeat case_match; auto.
Qed.

Lemma processReply_cases h rep other g :
  processReply srv h rep other (process_of g) = Return rep \/
  processReply srv h rep other (process_of g) = Select other (flip g) rep.
Proof.
  unfold processReply. rewrite processReply_range_representative.
  case_match; [apply process_of_cases|by left].
Qed.

Ltac reply_cases :=
  change processTrustedAnswer with (process_of Trusted) in *;
  change processUntrustedAnswer with (process_of Untrusted) in *;
  repeat match goal with
  | |- context [processReply srv ?h ?p ?o (process_of ?g)] =>
      destruct (processReply_cases h p o g) as [-> | ->]
  end.

(** ** [Serve] writes at most once *)

Ltac groups := repeat match goal with g : group |- _ => destruct g end.

Lemma inv_serve_ext s s' :
  serve s' = serve s -> writes s' = writes s ->
  recvd (race_t s') = recvd (race_t s) -> recvd (race_u s') = recvd (race_u s) ->
  inv_serve s -> inv_serve s'.
Proof.
  unfold inv_serve. intros -> -> Ht Hu.
  assert (forall g, recvd (race g s') = recvd (race g s)) as Hg by (by intros []).
  rewrite Ht, Hu. destruct (serve s); try done. by rewrite !Hg.
Qed.

Lemma inv_serve_reachable req s : reachable req s -> inv_serve s.
Proof.
  revert s. apply reachable_invariant; [done|].
  intros l s s' _ Hinv Hstep.
  step_cases Hstep;
    try (eapply inv_serve_ext; [..|exact Hinv]; by groups).
  all: reply_cases; unfold inv_serve in *; simpl;
    repeat match goal with
    | H : serve _ = _ |- _ => rewrite H in Hinv; rewrite ?H
    end; groups; simpl in *; try done.
  all: destruct_and?;
    repeat match goal with
    | H : match ?o with Some _ => _ | None => _ end |- _ => destruct o
    end; destruct_and?; simplify_eq/=.
  all: repeat match goal with
       | H : recvd _ = _ |- _ => rewrite H in *
       | H : writes _ = _ |- _ => rewrite H in *
       end; simpl.
  all: repeat split; eauto; simpl; try lia; set_solver.
Qed.

(** ** The result channels *)

Lemma inv_chan_reachable req g s : reachable req s -> inv_chan g s.
Proof.
  revert s. apply reachable_invariant; [by destruct g|].
  intros l s s' _ Hinv Hstep. unfold inv_chan in *.
  step_cases Hstep; groups; simpl in *; try done.
  all: repeat match goal with
       | H : result _ = _ |- _ => rewrite H in *
       end; simpl in *; rewrite ?Hinv, ?app_nil_r; try done.
  all: by rewrite <- ?app_assoc.
Qed.

(** ** The coordinators *)

Lemma set_task_eq i pc c t :
  tasks c !! i = Some t ->
  set_task i pc c =
  set_tasks (<[i := {| t_server := t_server t; t_pc := pc |}]> (tasks c)) c.
Proof. unfold set_task. by intros ->. Qed.

Lemma fmap_server_insert (ts : list Task) (i : nat) t pc :
  ts !! i = Some t ->
  t_server <$> <[i := {| t_server := t_server t; t_pc := pc |}]> ts = t_server <$> ts.
Proof.
  intros Hi. rewrite list_fmap_insert. simpl.
  apply list_insert_id. by rewrite list_lookup_fmap, Hi.
Qed.

Lemma coord_ok_new g : coord_ok g new_coord.
Proof. unfold coord_ok. simpl. repeat split; auto; lia. Qed.

(** A task moves on: the list of tasks keeps its length and its servers. *)
Lemma coord_ok_set_task g i pc c t :
  tasks c !! i = Some t ->
  coord_ok g c -> coord_ok g (set_task i pc c).
Proof.
  intros Hi (Hsrv & Hlen & Hwg & Hloop & Hfs).
  rewrite (set_task_eq _ _ _ _ Hi). unfold coord_ok. simpl.
  rewrite (fmap_server_insert _ _ _ _ Hi), length_insert.
  repeat split; auto. destruct (c_pc c); try done.
  by rewrite Hloop in Hi.
Qed.

(** Fields the invariant does not read. *)
Lemma coord_ok_ext g c c' :
  c_pc c' = c_pc c -> tasks c' = tasks c -> wg c' = wg c ->
  first_success c' = first_success c ->
  coord_ok g c -> coord_ok g c'.
Proof. unfold coord_ok. by intros -> -> -> ->. Qed.

Lemma coord_ok_pc g pc c :
  match pc with CWait | CReturned => True | _ => False end ->
  coord_ok g c -> coord_ok g (set_c_pc pc c).
Proof.
  intros Hpc (Hsrv & Hlen & Hwg & Hloop & Hfs). unfold coord_ok. simpl.
  repeat split; auto. by destruct pc.
Qed.

Lemma coord_ok_enter g c :
  servers srv g <> [] -> c_pc c = CEntry ->
  coord_ok g c -> coord_ok g (set_c_pc (CLoop 0) c).
Proof.
  intros Hne Hpc (Hsrv & Hlen & Hwg & Hloop & Hfs). unfold coord_ok. simpl.
  rewrite Hpc in Hloop. rewrite Hloop in *. simpl.
  repeat split; auto. destruct (servers srv g); [done|simpl; lia].
Qed.

Lemma coord_ok_launch g i server c :
  c_pc c = CLoop i -> servers srv g !! i = Some server ->
  coord_ok g c -> coord_ok g (launch g i server c).
Proof.
  intros Hpc Hi (Hsrv & Hlen & Hwg & Hloop & Hfs). rewrite Hpc in Hloop.
  destruct Hloop as [Hi' Hlt]. unfold coord_ok, launch, next_pc. simpl.
  rewrite length_app, fmap_app, Hsrv, Hi'. simpl.
  replace (i + 1) with (S i) by lia.
  rewrite (take_S_r _ _ _ Hi).
  repeat split; auto; try lia.
  - destruct (S i <? length (servers srv g)) eqn:E; simpl; [|done].
    apply Nat.ltb_lt in E. lia.
  - destruct (first_success c); [|done]. lia.
Qed.

Lemma coord_ok_succeed g i pc c t :
  tasks c !! i = Some t ->
  coord_ok g c -> coord_ok g (succeed i (set_task i pc c)).
Proof.
  intros Hi Hok. apply (coord_ok_set_task g i pc c t Hi) in Hok.
  assert (i < length (tasks (set_task i pc c))) as Hlt.
  { rewrite (set_task_eq _ _ _ _ Hi). simpl. rewrite length_insert.
    by apply lookup_lt_Some in Hi. }
  destruct Hok as (Hsrv & Hlen & Hwg & Hloop & Hfs). unfold succeed.
  destruct (first_success _) eqn:Hf; [by unfold coord_ok; rewrite Hf|].
  unfold coord_ok. simpl. repeat split; auto.
Qed.

Lemma coord_ok_done g n c :
  wg c = S n -> coord_ok g c -> coord_ok g (set_wg n c).
Proof.
  intros Hn (Hsrv & Hlen & Hwg & Hloop & Hfs). unfold coord_ok. simpl.
  repeat split; auto. lia.
Qed.

Ltac coord_ok_tac :=
  repeat first
    [ assumption
    | apply coord_ok_new
    | eapply coord_ok_succeed; [eassumption|]
    | eapply coord_ok_set_task; [simpl; eassumption|]
    | apply coord_ok_launch; [simpl; assumption|assumption|]
    | apply coord_ok_pc; [exact I|]
    | apply coord_ok_enter; [simpl; congruence|simpl; assumption|]
    | eapply coord_ok_done; [eassumption|]
    | eapply coord_ok_ext; [reflexivity..|] ].

Lemma inv_coord_reachable req g s : reachable req s -> inv_coord g s.
Proof.
  revert s. apply reachable_invariant; [by destruct g|].
  intros l s s' _ Hinv Hstep.
  step_cases Hstep; unfold inv_coord in *; groups; simpl in *; try done.
  all: repeat match goal with
       | H : coord _ = _ |- _ => rewrite H in *
       end; simpl in *; try done.
  all: coord_ok_tac.
Qed.

(** ** The store *)

Lemma ptr_ok_mono n m p : n <= m -> ptr_ok n p -> ptr_ok m p.
Proof. unfold ptr_ok. lia. Qed.

Lemma task_ok_mono n m t : n <= m -> task_ok n t -> task_ok m t.
Proof. unfold task_ok. destruct (t_pc t); eauto using ptr_ok_mono. Qed.

Lemma race_ok_mono n m r : n <= m -> race_ok n r -> race_ok m r.
Proof.
  intros Hnm (Hres & Hrecv & Hc). repeat split.
  - eapply Forall_impl; eauto using ptr_ok_mono.
  - eapply Forall_impl; eauto using ptr_ok_mono.
  - destruct (coord r); [|done]. eapply Forall_impl; eauto using task_ok_mono.
Qed.

Lemma ptrs_ok_mono n m s : n <= m -> ptrs_ok n s -> ptrs_ok m s.
Proof.
  intros Hnm (Hs & Ht & Hu & Hl).
  split; [|split; [|split]]; eauto using race_ok_mono.
  - eapply Forall_impl; eauto using ptr_ok_mono.
  - eapply Forall_impl; eauto using ptr_ok_mono.
Qed.

Lemma task_ok_set (ts : list Task) n i t pc :
  ts !! i = Some t ->
  match pc with TOk reply => ptr_ok n reply | _ => True end ->
  Forall (task_ok n) ts ->
  Forall (task_ok n) (<[i := {| t_server := t_server t; t_pc := pc |}]> ts).
Proof. intros Hi Hpc Hts. by apply Forall_insert. Qed.

Lemma Forall_ptr_ok_mono n m (ps : list ptr) :
  n <= m -> Forall (ptr_ok n) ps -> Forall (ptr_ok m) ps.
Proof. intros Hnm Hps. eapply Forall_impl; eauto using ptr_ok_mono. Qed.

Lemma Forall_task_ok_mono n m (ts : list Task) :
  n <= m -> Forall (task_ok n) ts -> Forall (task_ok m) ts.
Proof. intros Hnm Hts. eapply Forall_impl; eauto using task_ok_mono. Qed.

Ltac heap_tac :=
  rewrite ?length_insert, ?length_app; simpl;
  try match goal with
  | H : Forall (ptr_ok _) ?ps |- Forall (ptr_ok _) ?ps =>
      eapply Forall_ptr_ok_mono; [|exact H]; lia
  | H : Forall (task_ok _) ?ts |- Forall (task_ok _) ?ts =>
      eapply Forall_task_ok_mono; [|exact H]; lia
  | H : match ?c with Some _ => _ | None => _ end
    |- match ?c with Some _ => _ | None => _ end =>
      destruct c; [|done]; eapply Forall_task_ok_mono; [|exact H]; lia
  | |- match serve ?s with _ => _ end =>
      destruct (serve s); intuition congruence
  end.

Lemma tasks_succeed i c : tasks (succeed i c) = tasks c.
Proof. unfold succeed. by destruct (first_success c). Qed.

Lemma inv_heap_chan_made req s g c :
  inv_heap req s -> coord (race g s) = Some c -> chan_made s = true.
Proof.
  intros (_ & _ & _ & _ & Hpc) Hc.
  destruct g; simpl in Hc; rewrite Hc in Hpc;
    destruct (serve s); intuition congruence.
Qed.

Lemma task_ok_lookup n (ts : list Task) i t reply :
  Forall (task_ok n) ts -> ts !! i = Some t -> t_pc t = TOk reply -> ptr_ok n reply.
Proof.
  intros Hts Hi Hpc. apply (Forall_lookup_1 _ _ _ _ Hts) in Hi.
  unfold task_ok in Hi. by rewrite Hpc in Hi.
Qed.

Lemma NoDup_snoc_fresh (ps : list ptr) n :
  Forall (ptr_ok n) ps -> NoDup ps -> NoDup (ps ++ [n]).
Proof.
  intros Hps Hnd. apply NoDup_app. split; [done|]. split; [|apply NoDup_singleton].
  intros p Hp Hn. apply list_elem_of_singleton in Hn. subst p.
  apply (Forall_forall _ _) with (x := n) in Hps; [|done]. unfold ptr_ok in Hps. lia.
Qed.

Lemma inv_heap_reachable req s : reachable req s -> inv_heap req s.
Proof.
  revert s. apply reachable_invariant.
  { unfold inv_heap, ptrs_ok, race_ok. simpl. repeat split; auto using NoDup_nil_2. }
  intros l s s' _ Hinv Hstep.
  assert (0 < length (heap s)) as Hlen.
  { destruct Hinv as [Hreq _]. by apply lookup_lt_Some in Hreq. }
  assert (forall g c, coord (race g s) = Some c -> chan_made s = true) as Hmade
    by eauto using inv_heap_chan_made.
  step_cases Hstep; reply_cases;
    try match goal with
    | H : coord (race ?g s) = Some _ |- _ => pose proof (Hmade _ _ H)
    end; clear Hmade;
    unfold inv_heap, ptrs_ok, race_ok in *; groups; simpl in *.
  all: repeat match goal with
       | H : serve _ = _ |- _ => rewrite H in *
       | H : coord _ = _ |- _ => rewrite H in *
       | H : result _ = _ |- _ => rewrite H in *
       | H : tasks _ !! _ = Some _ |- _ => rewrite ?(set_task_eq _ _ _ _ H)
       end; simpl in *; destruct_and?.
  all: repeat match goal with
       | H : Forall _ (_ :: _) |- _ => apply Forall_cons in H; destruct H
       | Hts : Forall (task_ok _) ?ts, Hi : ?ts !! _ = Some ?t, Hpc : t_pc ?t = TOk _
         |- _ => pose proof (task_ok_lookup _ _ _ _ _ Hts Hi Hpc); clear Hpc
       end.
  all: repeat split; simpl; auto.
  all: heap_tac.
  all: try (apply Forall_app; split; heap_tac).
  all: try (apply NoDup_snoc_fresh; assumption).
  all: unfold set_task, request_of, deref, req_ptr, ptr_ok in *; simpl in *;
       rewrite ?tasks_succeed, ?fmap_app, ?length_insert, ?length_app; simpl.
  all: repeat match goal with
       | H : chan_made _ = _ |- _ => rewrite H in *
       | H : heap _ !! 0 = _ |- _ => rewrite H in *
       | H : tasks _ !! _ = _ |- _ => rewrite H in *
       end; simpl.
  all: rewrite ?lookup_app_l by (rewrite ?length_insert, ?length_app; simpl; lia).
  all: rewrite ?list_lookup_insert_ne by lia; rewrite ?lookup_app_l by lia.
  all: try done.
  all: try (apply list_lookup_insert_eq; lia).
  all: try (apply Forall_insert; [|unfold task_ok; simpl; unfold ptr_ok; lia]).
  all: try (apply Forall_app; split).
  all: try (eapply Forall_impl; [eassumption|simpl; intros; lia]).
  all: try (repeat constructor; simpl; unfold task_ok; simpl; lia).
  all: try (apply (NoDup_snoc_fresh _ _ ltac:(eassumption) ltac:(assumption))).
  all: repeat constructor; simpl.
  all: try by rewrite lookup_app_r, Nat.sub_diag by lia.
  all: heap_tac.
Qed.

(** ** What [Serve] starts *)

(** A coordinator, once started, stays. *)
Lemma coord_persists l s s' g :
  step l s = Some s' -> is_Some (coord (race g s)) -> is_Some (coord (race g s')).
Proof.
  intros Hstep Hc. step_cases Hstep; groups; simpl in *; eauto.
Qed.

(** Only a task of a coordinator calls a [LookupFunc]. *)
Lemma lookups_step l s s' :
  step l s = Some s' ->
  lookups s' = lookups s \/
  exists call, lookups s' = lookups s ++ [call] /\
               is_Some (coord (race (lc_group call) s)).
Proof.
  intros Hstep. step_cases Hstep; groups; simpl in *; eauto.
Qed.

Lemma inv_lookups_reachable req s : reachable req s -> inv_lookups s.
Proof.
  revert s. apply reachable_invariant; [by constructor|].
  unfold inv_lookups. intros l s s' _ Hcalls Hstep.
  assert (Forall (fun call => is_Some (coord (race (lc_group call) s'))) (lookups s)).
  { eapply Forall_impl; [exact Hcalls|]. intros call. simpl.
    eauto using coord_persists. }
  destruct (lookups_step _ _ _ Hstep) as [-> | (call & -> & Hc)]; [done|].
  apply Forall_app. split; [done|]. repeat constructor.
  eauto using coord_persists.
Qed.

Lemma qName_of_Some req qName :
  qName_of req = Some qName ->
  exists q qs, Questions req = q :: qs /\ Name q = qName.
Proof.
  unfold qName_of. destruct (Questions req) as [|q qs]; [done|].
  simpl. intros [= <-]. eauto.
Qed.

Lemma inv_started_reachable qName req s :
  qName_of req = Some qName -> reachable req s -> inv_started qName req s.
Proof.
  intros Hq. destruct (qName_of_Some _ _ Hq) as (q & qs & Hqs & Hname).
  revert s. apply reachable_invariant; [done|].
  intros l s s' _ Hinv Hstep.
  step_cases Hstep; reply_cases; unfold inv_started, started in *;
    repeat match goal with
    | H : serve _ = _ |- _ => rewrite H in Hinv; rewrite ?H
    end; groups; simpl in *; try done.
  all: try (destruct (serve s) eqn:Hs; simpl in * ).
  all: try (destruct Hinv as [[Hb [h ->]]|Hinv]; [simpl in *; congruence|]).
  all: try (subst s; unfold deref in *; simpl in *; simplify_eq/=).
  all: try (rewrite Hqs in *; simplify_eq/=).
  all: destruct_and?;
       repeat match goal with
       | H : coord _ = _ |- _ => rewrite H in *
       end; try congruence.
  all: try (left; split; [done|]; by eexists).
  all: simplify_eq.
  all: try (right; repeat split; try done).
  all: try (destruct (DomainPolluted srv _) eqn:?; simpl in *; destruct_and?;
            repeat split; eauto; congruence).
  all: repeat split; eauto; congruence.
Qed.

(** For a request with a question, what [Serve] started and who called a
    [LookupFunc]. *)
Lemma inv_setup_reachable qName req s :
  qName_of req = Some qName -> reachable req s -> inv_setup qName req s.
Proof.
  intros Hq Hs. split; eauto using inv_started_reachable, inv_lookups_reachable.
Qed.

(** ** No servers at all *)

Section NoServers.

Hypothesis no_trusted : TrustedServers srv = [].
Hypothesis no_untrusted : UntrustedServers srv = [].

Lemma inv_empty_reachable qName req s :
  qName_of req = Some qName -> DomainBlacklist srv qName = false ->
  reachable req s -> inv_empty req s.
Proof.
  intros Hq Hb. destruct (qName_of_Some _ _ Hq) as (q & qs & Hqs & Hname).
  revert s. apply reachable_invariant; [by repeat split|].
  intros l s s' _ Hinv Hstep.
  step_cases Hstep; reply_cases; unfold inv_empty, idle in *;
    repeat match goal with
    | H : serve _ = _ |- _ => rewrite H in Hinv; rewrite ?H
    end; groups; simpl in *; destruct_and?; try contradiction.
  all: repeat match goal with
       | H : coord _ = _ |- _ => rewrite H in *
       | H : result _ = _ |- _ => rewrite H in *
       end; destruct_and?; try congruence.
  all: repeat match goal with
       | H : tasks _ = [] |- _ => rewrite H in *
       | H : ticker_C _ = None |- _ => rewrite H in *
       end; try done.
  all: repeat match goal with
       | H : _ \/ _ |- _ => destruct H; destruct_and?; try congruence
       end.
  all: try (destruct (serve s) eqn:Hs; simpl in *; destruct_and?; try contradiction).
  all: try (subst s; unfold deref in *; simpl in *; simplify_eq/=).
  all: try (rewrite Hqs in *; simplify_eq/=).
  all: repeat match goal with
       | H : heap _ = _ |- _ => rewrite H in *
       | H : writes _ = _ |- _ => rewrite H in *
       | H : c_pc _ = _ |- _ => rewrite H in *
       end; unfold deref; simpl.
  all: repeat split; eauto; try congruence; try (intros; congruence).
Qed.

(** Every step uses up some of what is left to do. *)
Lemma rank_decreases qName req l s s' :
  qName_of req = Some qName ->
  inv_empty req s -> step l s = Some s' -> rank s' < rank s.
Proof.
  intros Hq Hinv Hstep. destruct (qName_of_Some _ _ Hq) as (q & qs & Hqs & Hname).
  step_cases Hstep; reply_cases; unfold inv_empty, idle, rank in *;
    repeat match goal with
    | H : serve _ = _ |- _ => rewrite H in Hinv; rewrite ?H
    end; groups; simpl in *; destruct_and?; try contradiction.
  all: try (subst s; unfold deref in *; simpl in *; simplify_eq/=; first [congruence|lia]).
  all: repeat match goal with
       | H : coord _ = _ |- _ => rewrite H in *
       | H : result _ = _ |- _ => rewrite H in *
       | H : joiner _ = _ |- _ => rewrite H in *
       end; destruct_and?; try congruence.
  all: repeat match goal with
       | H : tasks _ = [] |- _ => rewrite H in *
       | H : ticker_C _ = None |- _ => rewrite H in *
       end; try done.
  all: repeat match goal with
       | H : _ \/ _ |- _ => destruct H; destruct_and?; try congruence
       end.
  all: simpl;
       repeat match goal with
       | Hc : c_pc _ = _ |- _ => rewrite Hc; clear Hc
       end; simpl; lia.
Qed.

(** Short of the return of [Serve], some goroutine can move. *)
Lemma empty_progress qName req s :
  qName_of req = Some qName -> DomainBlacklist srv qName = false ->
  inv_empty req s -> serve s <> SReturned ->
  exists l s', step l s = Some s'.
Proof.
  intros Hq Hb (Hp & [Hrt Ht] & [Hru Hu] & Hj & Hpc) Hs.
  destruct (qName_of_Some _ _ Hq) as (q & qs & Hqs & Hname).
  unfold step. rewrite Hp. simpl in Ht, Hu.
  destruct (serve s) eqn:Hserve; try done.
  - exists LServe. unfold Serve_step. rewrite Hserve. subst s. unfold deref. simpl.
    rewrite Hqs, Hname, Hb. by eexists.
  - exists LServe. unfold Serve_step. rewrite Hserve. by eexists.
  - exists LServe. unfold Serve_step. rewrite Hserve. destruct (negb _); by eexists.
  - destruct Hpc as (Hjs & Hct & Hcu & _).
    destruct (root_cancelled s) eqn:Hroot.
    { exists LDone. unfold Serve_done. rewrite Hroot, Hserve. by eexists. }
    destruct Hjs as [j Hjs]. destruct j.
    + destruct (cancelled (race_u s)) eqn:Hcan.
      { exists LJoin. unfold joiner_step, done. simpl. rewrite Hjs, Hcan. by eexists. }
      destruct Hcu as [|[c Hc]]; [done|]. rewrite Hc in Hu.
      destruct Hu as (_ & _ & [Hentry | [_ ?]]); [|congruence].
      exists (LEnter Untrusted). unfold lookupInServers_enter. simpl.
      rewrite Hc. simpl. rewrite Hentry, no_untrusted. by eexists.
    + destruct (cancelled (race_t s)) eqn:Hcan.
      { exists LJoin. unfold joiner_step, done. simpl. rewrite Hjs, Hcan. by eexists. }
      destruct Hct as [c Hc]. rewrite Hc in Ht.
      destruct Ht as (_ & _ & [Hentry | [_ ?]]); [|congruence].
      exists (LEnter Trusted). unfold lookupInServers_enter. simpl.
      rewrite Hc. simpl. rewrite Hentry, no_trusted. by eexists.
    + exists LJoin. unfold joiner_step. rewrite Hjs. by eexists.
    + specialize (Hj Hjs). congruence.
  - exists LServe. unfold Serve_step. rewrite Hserve. by eexists.
  - exists LServe. unfold Serve_step. rewrite Hserve. destruct reply; by eexists.
Qed.


Lemma run_bounded qName req ls s s' :
  qName_of req = Some qName -> DomainBlacklist srv qName = false ->
  reachable req s -> run ls s = Some s' -> length ls + rank s' <= rank s.
Proof.
  intros Hq Hb. revert s. induction ls as [|l ls IH]; intros s Hs Hrun; simpl in *.
  - simplify_eq. lia.
  - destruct (step l s) as [s1|] eqn:Hl; [|done].
    pose proof (rank_decreases _ _ _ _ _ Hq (inv_empty_reachable _ _ _ Hq Hb Hs) Hl).
    pose proof (IH s1 (reachable_step _ _ _ _ Hs Hl) Hrun). lia.
Qed.

Lemma run_returns qName req s :
  qName_of req = Some qName -> DomainBlacklist srv qName = false ->
  reachable req s -> exists ls s', run ls s = Some s' /\ serve s' = SReturned.
Proof.
  intros Hq Hb. remember (rank s) as n eqn:Hn. revert s Hn.
  induction n as [n IH] using lt_wf_ind. intros s -> Hs.
  assert (serve s = SReturned \/ serve s <> SReturned) as [Hret|Hret]
    by (destruct (serve s); auto).
  { by exists [], s. }
  pose proof (inv_empty_reachable _ _ _ Hq Hb Hs) as Hinv.
  destruct (empty_progress _ _ _ Hq Hb Hinv Hret) as (l & s1 & Hl).
  pose proof (rank_decreases _ _ _ _ _ Hq Hinv Hl) as Hlt.
  destruct (IH _ Hlt s1 eq_refl (reachable_step _ _ _ _ Hs Hl)) as (ls & s' & Hrun & Hs').
  exists (l :: ls), s'. simpl. by rewrite Hl.
Qed.

(** C7. With both server lists empty, [Serve] returns for every request that
    is not blacklisted, having written the empty reply: the select of
    [Serve] can never take a receive case; in every reachable state short of
    the return some goroutine can move (no deadlock); every schedule from
    there is finite, of at most 11 steps in all; some schedule from there
    reaches the return; and at the return the one message written is the
    reply set from the normalized request, with no answer records. *)
Theorem C7_no_servers_terminates qName req s :
  qName_of req = Some qName -> DomainBlacklist srv qName = false ->
  reachable req s ->
  (forall g, step (LRecv g) s = None) /\
  (serve s <> SReturned -> exists l s', step l s = Some s') /\
  (forall ls s', run ls s = Some s' -> length ls <= rank s) /\ rank s <= 11 /\
  (exists ls s', run ls s = Some s' /\ serve s' = SReturned) /\
  (serve s = SReturned ->
     writes s = [Some (SetReply zeroMsg (normalizeRequest req))] /\
     Answer (SetReply zeroMsg (normalizeRequest req)) = []).
Proof.
  intros Hq Hb Hs. pose proof (inv_empty_reachable _ _ _ Hq Hb Hs) as Hinv.
  split; [|split; [|split; [|split; [|split]]]].
  - intros g. destruct Hinv as (Hp & [Hrt _] & [Hru _] & _ & Hpc).
    unfold step, Serve_recv. rewrite Hp.
    destruct (serve s); simpl in Hpc; try done.
    destruct g; [by rewrite Hrt|by rewrite Hru].
  - by apply (empty_progress qName req).
  - intros ls s' Hrun. pose proof (run_bounded _ _ _ _ _ Hq Hb Hs Hrun). lia.
  - destruct Hs as [ls0 Hls0].
    pose proof (run_bounded _ _ _ _ _ Hq Hb (reachable_init req) Hls0) as Hle.
    assert (rank (init req) = 11) as Hinit by done. lia.
  - by apply (run_returns qName req).
  - intros Hret. destruct Hinv as (_ & _ & _ & _ & Hpc). rewrite Hret in Hpc. done.
Qed.

End NoServers.

(** ** The claims *)

(** X1.  What stays of C1 on every schedule: [w.WriteMsg] is called at most
    once, never with nil, not before the return and exactly once by then. *)
Lemma Serve_writes_at_most_once req s :
  reachable req s ->
  length (writes s) <= 1 /\
  Forall is_Some (writes s) /\
  (serve s = SReturned -> exists m, writes s = [Some m]) /\
  (serve s <> SReturned -> writes s = []).
Proof.
  intros Hs. pose proof (inv_serve_reachable _ _ Hs) as Hinv.
  unfold inv_serve in Hinv.
  destruct (serve s); destruct_and?;
    repeat match goal with
    | H : exists _, _ |- _ => destruct H
    | H : writes _ = _ |- _ => rewrite H
    end; simpl; repeat split; eauto; try done; try lia.
Qed.

(** [Serve] takes at most one value from each result channel. *)
Lemma recvd_at_most_one req g s :
  reachable req s -> length (recvd (race g s)) <= 1.
Proof.
  intros Hs. pose proof (inv_serve_reachable _ _ Hs) as Hserve.
  unfold inv_serve in Hserve.
  destruct (serve s); destruct_and?;
    repeat match goal with
    | H : match ?o with Some _ => _ | None => _ end |- _ => destruct o
    end; destruct_and?; simplify_eq; groups; simpl in *;
    repeat match goal with
    | H : recvd _ = _ |- _ => rewrite H
    end; simpl; lia.
Qed.

(** C2, amended.  A result channel is a queue of capacity one: what was
    sent is what [Serve] took followed by what still sits in the slot; no
    send succeeds while the slot is full; [Serve] takes at most one value
    from each channel, so at most two values are ever placed on it, the
    second only after [Serve] took the first. *)
Theorem C2_result_channel req g s :
  reachable req s ->
  sent (race g s) = recvd (race g s) ++ option_list (result (race g s)) /\
  length (recvd (race g s)) <= 1 /\
  length (sent (race g s)) <= 2 /\
  (forall l s', step l s = Some s' -> is_Some (result (race g s)) ->
     sent (race g s') = sent (race g s)).
Proof.
  intros Hs. pose proof (inv_chan_reachable _ g _ Hs) as Hchan.
  pose proof (recvd_at_most_one _ g _ Hs) as Hrecv.
  unfold inv_chan in Hchan. split; [done|]. split; [done|]. split.
  - rewrite Hchan, length_app. destruct (result (race g s)); simpl; lia.
  - intros l s' Hstep [p Hp]. clear Hchan Hrecv Hs.
    step_cases Hstep; groups; simpl in *; congruence.
Qed.


(** C4.  For a request whose first question is blacklisted, the first step
    of [Serve] writes a reply and returns, and the only states ever reached
    are the initial one and the one after that step: one message written,
    the reply set from the request, with no answer records; no contexts, no
    channels, no goroutine, no call of a [LookupFunc]; and nothing left to
    run. *)
Theorem C4_blacklisted qName req s :
  qName_of req = Some qName -> DomainBlacklist srv qName = true ->
  reachable req s ->
  (exists s', step LServe (init req) = Some s' /\ serve s' = SReturned) /\
  (s = init req \/
   (serve s = SReturned /\
    writes s = [Some (SetReply zeroMsg req)] /\
    Answer (SetReply zeroMsg req) = [] /\
    ctx_made s = false /\ chan_made s = false /\ joiner s = None /\
    coord (race_t s) = None /\ coord (race_u s) = None /\
    lookups s = [] /\
    forall l, step l s = None)).
Proof.
  intros Hq Hb Hs. destruct (qName_of_Some _ _ Hq) as (q & qs & Hqs & Hname).
  split.
  { unfold step, Serve_step, deref. simpl. rewrite Hqs, Hname, Hb. by eexists. }
  pose proof (inv_started_reachable _ _ _ Hq Hs) as Hinv.
  unfold inv_started, started in Hinv.
  destruct (serve s) eqn:Hpc; destruct_and?; try congruence; [by left|].
  destruct Hinv as [[_ [h ->]] | [? _]]; [|congruence].
  right. repeat split.
  intros l. unfold step. simpl. by destruct l; try destruct g.
Qed.

(** C5.  For a request that is not blacklisted: if its first question is
    polluted, no untrusted coordinator is ever started, every call of a
    [LookupFunc] is one of the trusted class, and the statement of [Serve]
    that would start the untrusted coordinator cancels the untrusted context
    instead, which stays cancelled; polluted or not, the trusted coordinator
    is started before [Serve] reaches that statement. *)
Theorem C5_polluted qName req s :
  qName_of req = Some qName -> DomainBlacklist srv qName = false ->
  reachable req s ->
  (DomainPolluted srv qName = true ->
     coord (race_u s) = None /\
     Forall (fun call => lc_group call = Trusted) (lookups s) /\
     (forall qn, serve s = SPolluted qn ->
        step LServe s = Some (set_serve SSelect (cancel Untrusted s)) \/
        panicked s = true) /\
     match serve s with
     | SEntry | SNormalize _ | SPolluted _ => True
     | _ => cancelled (race_u s) = true
     end) /\
  match serve s with
  | SEntry | SNormalize _ => True
  | _ => is_Some (coord (race_t s))
  end.
Proof.
  intros Hq Hb Hs. destruct (inv_setup_reachable _ _ _ Hq Hs) as [Hinv Hcalls].
  unfold inv_started, started in Hinv. split.
  - intros Hp. rewrite Hp in Hinv.
    assert (coord (race_u s) = None) as Hnone.
    { destruct (serve s); destruct_and?; try done; [by subst s|].
      destruct Hinv as [[? _] | ?]; [congruence|by destruct_and?]. }
    split; [done|]. split; [|split].
    + eapply Forall_impl; [exact Hcalls|]. intros call Hc. simpl in Hc.
      destruct (lc_group call); [done|]. simpl in Hc. rewrite Hnone in Hc.
      by destruct Hc.
    + intros qn Hpc. rewrite Hpc in Hinv. destruct Hinv as (-> & _).
      unfold step, Serve_step. rewrite Hpc, Hp. destruct (panicked s); auto.
    + destruct (serve s); destruct_and?; try done.
      destruct Hinv as [[? _] | ?]; [congruence|by destruct_and?].
  - destruct (serve s); destruct_and?; try done.
    destruct Hinv as [[? _] | ?]; [congruence|by destruct_and?].
Qed.

(** C6.  [Serve] is in its select and the untrusted channel holds a reply
    whose representative address is not in the IP blacklist and is in the
    domestic set.  Then [processUntrustedAnswer] returns that reply whatever
    channel it is given, and the receive case of the select takes [Serve]
    straight to the cancel of line 110 with that reply: the trusted channel
    is not read and no context is waited on, whatever the trusted channel
    holds. *)
Theorem C6_domestic_accepted s rep answer :
  panicked s = false -> serve s = SSelect ->
  result (race_u s) = Some rep ->
  representative_of (deref (heap s) rep) = Some answer ->
  fst (IPBlacklist srv answer) = false ->
  fst (ChinaCIDR srv answer) = true ->
  (forall trusted, processUntrustedAnswer srv rep answer trusted = Return rep) /\
  exists s', step (LRecv Untrusted) s = Some s' /\
    serve s' = SCancel (Some rep) /\
    result (race_t s') = result (race_t s) /\
    recvd (race_t s') = recvd (race_t s) /\
    recvd (race_u s') = recvd (race_u s) ++ [rep].
Proof.
  intros Hp Hpc Hres Hrep Hhit Hcontain.
  assert (forall trusted, processUntrustedAnswer srv rep answer trusted = Return rep)
    as Hret.
  { intros trusted. unfold processUntrustedAnswer.
    destruct (IPBlacklist srv answer) as [hit e1].
    destruct (ChinaCIDR srv answer) as [contain e2]. simpl in *. by subst. }
  split; [done|].
  unfold step, Serve_recv. rewrite Hp, Hpc. simpl. rewrite Hres.
  eexists. split; [done|]. simpl.
  unfold processReply. rewrite processReply_range_representative.
  unfold representative_of in Hrep. rewrite Hrep, Hret. done.
Qed.

(** C8, amended.  Called with an empty server list, [lookupInServers]
    returns at once: it puts nothing on the result channel, starts no task,
    creates no ticker, calls no [LookupFunc], and leaves the store, the
    other class, [Serve], the joining goroutine and the root context as
    they were; its one effect is the deferred [cancel()], which cancels the
    context it was given. *)
Theorem C8_empty_list g s c :
  servers srv g = [] -> panicked s = false ->
  coord (race g s) = Some c -> c_pc c = CEntry ->
  exists s', step (LEnter g) s = Some s' /\
    coord (race g s') = Some (set_c_pc CReturned c) /\
    cancelled (race g s') = true /\
    result (race g s') = result (race g s) /\
    sent (race g s') = sent (race g s) /\
    recvd (race g s') = recvd (race g s) /\
    race (flip g) s' = race (flip g) s /\
    heap s' = heap s /\ lookups s' = lookups s /\ writes s' = writes s /\
    serve s' = serve s /\ joiner s' = joiner s /\
    root_cancelled s' = root_cancelled s /\ panicked s' = false.
Proof.
  intros Hsrv Hp Hc Hpc. unfold step, lookupInServers_enter.
  rewrite Hp, Hc. simpl. rewrite Hpc, Hsrv.
  eexists. split; [done|]. by destruct g.
Qed.


Lemma chan_made_stays l s s' :
  step l s = Some s' -> chan_made s = true -> chan_made s' = true.
Proof. intros Hstep Hc. step_cases Hstep; groups; simpl in *; done. Qed.

(** C10.  Once the racing has begun, the request that [Serve] shares with
    the coordinators holds what [normalizeRequest] left there and no step of
    any goroutine changes it; every call of a [LookupFunc] was made on a
    cell of the store other than the request's and other than that of every
    other call, holding a copy of the request. *)
Theorem C10_request_not_shared req s :
  reachable req s -> chan_made s = true ->
  heap s !! req_ptr = Some (normalizeRequest req) /\
  (forall l s', step l s = Some s' -> heap s' !! req_ptr = heap s !! req_ptr) /\
  Forall (fun call => lc_arg call <> req_ptr /\ lc_arg call < length (heap s) /\
                      lc_msg call = normalizeRequest req) (lookups s) /\
  NoDup (lc_arg <$> lookups s).
Proof.
  intros Hs Hmade.
  destruct (inv_heap_reachable _ _ Hs) as (Hreq & (_ & _ & _ & Hargs) & Hmsg & Hnd & _).
  unfold request_of in Hreq. rewrite Hmade in Hreq.
  split; [done|]. split; [|split; [|done]].
  - intros l s' Hstep.
    destruct (inv_heap_reachable _ _ (reachable_step _ _ _ _ Hs Hstep)) as [Hreq' _].
    unfold request_of in Hreq'.
    rewrite (chan_made_stays _ _ _ Hstep Hmade) in Hreq'. congruence.
  - rewrite Forall_fmap in Hargs. rewrite Forall_forall in *.
    intros call Hin. specialize (Hargs call Hin). specialize (Hmsg call Hin).
    simpl in Hargs. unfold ptr_ok, req_ptr in *. repeat split; [lia|lia|done].
Qed.

(** ** The wait group, panics and the contexts *)

Lemma outstanding_app ts t : outstanding (ts ++ [t]) = outstanding ts + running t.
Proof.
  unfold outstanding. rewrite fmap_app, sum_list_with_app. simpl. unfold id. lia.
Qed.

Lemma outstanding_insert (ts : list Task) (i : nat) t t' :
  ts !! i = Some t ->
  outstanding (<[i := t']> ts) + running t = outstanding ts + running t'.
Proof.
  revert i. induction ts as [|t0 ts IH]; intros i Hi; [done|].
  destruct i as [|i]; simpl in *.
  - simplify_eq. unfold outstanding. rewrite !fmap_cons. 
    change (sum_list_with id (?a :: ?l)) with (id a + sum_list_with id l).
    generalize (sum_list (running <$> ts)). unfold id. intros; lia.
  - specialize (IH i Hi). unfold outstanding in *. rewrite !fmap_cons.
    change (sum_list_with id (?a :: ?l)) with (id a + sum_list_with id l).
    revert IH. generalize (sum_list (running <$> ts)), (sum_list (running <$> <[i:=t']> ts)).
    unfold id. intros; lia.
Qed.

Lemma wg_succeed i c : wg (succeed i c) = wg c.
Proof. unfold succeed. by destruct (first_success c). Qed.

Lemma set_task_outstanding i pc c t :
  tasks c !! i = Some t ->
  wg (set_task i pc c) = wg c /\
  outstanding (tasks (set_task i pc c)) + running t =
  outstanding (tasks c) + match pc with TGone => 0 | _ => 1 end.
Proof.
  intros Hi. rewrite (set_task_eq _ _ _ _ Hi). split; [done|].
  simpl. by rewrite (outstanding_insert _ _ _ _ Hi).
Qed.

Lemma inv_wg_reachable req g s : reachable req s -> inv_wg g s.
Proof.
  revert s. apply reachable_invariant; [by destruct g|].
  intros l s s' _ Hinv Hstep.
  step_cases Hstep; unfold inv_wg in *; groups; simpl in *; try done.
  all: repeat match goal with
       | H : coord _ = _ |- _ => rewrite H in *
       end; simpl in *; try done.
  all: unfold launch; simpl; rewrite ?outstanding_app; try (unfold running; simpl; lia).
  all: rewrite ?tasks_succeed, ?wg_succeed.
  all: match goal with
       | H : tasks ?c !! ?i = Some ?t |- context [set_task ?i ?pc ?c'] =>
           destruct (set_task_outstanding i pc c' t H) as [Hw Ho];
           rewrite Hw; unfold running in Ho;
           repeat match goal with
           | H : t_pc _ = _ |- _ => rewrite H in Ho
           end; simpl in *; try lia
       end.
Qed.

Lemma outstanding_0 (ts : list Task) :
  outstanding ts = 0 -> Forall (fun t => t_pc t = TGone) ts.
Proof.
  induction ts as [|t ts IH]; [done|].
  unfold outstanding in *. rewrite fmap_cons.
  change (sum_list_with id (?a :: ?l)) with (id a + sum_list_with id l).
  unfold id at 1. intros Hsum. constructor.
  - unfold running in Hsum. destruct (t_pc t); (done || lia).
  - apply IH. lia.
Qed.


(** The states of a run on a request without a question. *)
Lemma empty_question_states req s :
  Questions req = [] -> reachable req s -> s = init req \/ s = panic (init req).
Proof.
  intros Hq. revert s. apply reachable_invariant; [by left|].
  intros l s s' _ [-> | ->] Hstep; [|done].
  right. unfold step in Hstep. simpl in Hstep.
  destruct l; simpl in Hstep; try done; try (by destruct g).
  unfold Serve_step in Hstep. simpl in Hstep. unfold deref in Hstep.
  simpl in Hstep. rewrite Hq in Hstep. by simplify_eq.
Qed.

(** Past its first statement [Serve] has a request with a question. *)
Lemma reachable_question req s :
  reachable req s -> serve s <> SEntry -> is_Some (qName_of req).
Proof.
  revert s.
  apply (reachable_invariant req (fun s => serve s <> SEntry -> is_Some (qName_of req)));
    [done|].
  intros l s s' Hs Hinv Hstep Hpc.
  destruct (inv_heap_reachable _ _ Hs) as (Hreq & _ & _ & _ & Hmade).
  step_cases Hstep; simpl in *;
    try (apply Hinv; congruence).
  all: destruct Hmade as (Hmade & _); unfold request_of in Hreq;
       rewrite Hmade in Hreq; unfold deref in *; rewrite Hreq in *; simpl in *;
       unfold qName_of;
       match goal with H : Questions _ = _ :: _ |- _ => by rewrite H end.
Qed.

Lemma inv_joiner_reachable req s : reachable req s -> inv_joiner s.
Proof.
  revert s. apply reachable_invariant; [done|].
  intros l s s' _ Hinv Hstep.
  step_cases Hstep; reply_cases; destruct Hinv as [Hgone Hsome];
    unfold inv_joiner; simpl in *;
    repeat match goal with
    | H : serve _ = _ |- _ => rewrite H in Hsome; rewrite ?H
    end; try done.
  all: split; [done|]; try (destruct (serve s); done).
Qed.

Lemma outstanding_pos (ts : list Task) i t :
  ts !! i = Some t -> t_pc t <> TGone -> 0 < outstanding ts.
Proof.
  revert i. induction ts as [|t0 ts IH]; intros i Hi Hpc; [done|].
  unfold outstanding in *. rewrite fmap_cons.
  change (sum_list_with id (?a :: ?l)) with (id a + sum_list_with id l).
  destruct i as [|i]; simpl in Hi.
  - simplify_eq. unfold id, running. destruct (t_pc t); (done || lia).
  - specialize (IH i Hi Hpc). lia.
Qed.

Lemma inv_panic_reachable req s : reachable req s -> inv_panic req s.
Proof.
  revert s. apply reachable_invariant.
  { split; [done|]. by intros _. }
  intros l s s' Hs Hinv Hstep.
  pose proof (inv_heap_reachable _ _ Hs) as Hheap.
  pose proof (inv_wg_reachable _ Trusted _ Hs) as Hwt.
  pose proof (inv_wg_reachable _ Untrusted _ Hs) as Hwu.
  step_cases Hstep; reply_cases; destruct Hinv as [Hp Hd]; split; simpl in *;
    try (intros; congruence); try (by auto).
  all: try (intros Hdelay; destruct (Hd Hdelay) as (Hnone & [Hst Hct] & [Hsu Hcu]);
            unfold no_ticker in *; groups; simpl in *;
            repeat match goal with
            | H : coord _ = _ |- _ => rewrite H in *
            end; simpl in *; destruct_and?; destruct_or?; simplify_eq/=;
            try congruence;
            try match goal with
            | Ht : tasks ?c = [], Hl : tasks ?c !! _ = Some _ |- _ =>
                rewrite Ht in Hl; done
            end; by (repeat split; auto)).
  - intros _. left. destruct Hheap as (Hreq & _ & _ & _ & Hmade).
    rewrite H in Hmade. destruct Hmade as (Hmade & _).
    unfold request_of in Hreq. rewrite Hmade in Hreq.
    unfold deref in *. by rewrite Hreq in *.
  - intros _. right. split; [done|]. exists g. congruence.
  - exfalso. assert (inv_wg g s) as Hw by (by destruct g).
    unfold inv_wg in Hw. rewrite Heqo in Hw.
    assert (0 < outstanding (tasks H)) by (eapply outstanding_pos; [done|congruence]).
    lia.
Qed.

Lemma set_task_lookup_ne i j pc c t :
  i <> j -> tasks c !! j = Some t -> tasks (set_task i pc c) !! j = Some t.
Proof.
  intros Hij Hj. unfold set_task. destruct (tasks c !! i); [|done].
  simpl. by rewrite list_lookup_insert_ne.
Qed.

Lemma set_task_lookup_eq i pc c t :
  tasks c !! i = Some t ->
  tasks (set_task i pc c) !! i = Some {| t_server := t_server t; t_pc := pc |}.
Proof.
  intros Hi. rewrite (set_task_eq _ _ _ _ Hi). simpl.
  apply list_lookup_insert_eq. by eapply lookup_lt_Some.
Qed.

Lemma inv_sender_reachable req g s : reachable req s -> inv_sender g s.
Proof.
  revert s. apply reachable_invariant; [by left; destruct g|].
  intros l s s' Hs Hinv Hstep.
  pose proof (inv_heap_reachable _ _ Hs) as Hheap.
  pose proof (reachable_question _ _ Hs) as Hq.
  step_cases Hstep; reply_cases; unfold inv_sender in *; groups; simpl in *;
    try done.
  all: try (by right; left).
  all: try (destruct Hinv as [Hs0 | [Hc | (c & i0 & t & Hco & Hl & Hpc)]];
    [by left|by right; left|]).
  all: try (right; right; eexists _, i, _; split; [done|];
            split; [by eapply set_task_lookup_eq|done]).
  all: try (simplify_eq; right; right; eexists _, i0, _; split; [done|];
            rewrite ?tasks_succeed; split; [|exact Hpc];
            first
              [ exact Hl
              | by apply lookup_app_l_Some
              | apply set_task_lookup_ne; [|exact Hl]; intros ->; congruence ]).
  - destruct Hheap as (_ & _ & _ & _ & Hnone). rewrite H in Hnone.
    destruct Hnone as (_ & Hnone & _). congruence.
  - assert (is_Some (qName_of req)) as [qn Hqn] by (by apply Hq).
    pose proof (inv_started_reachable _ _ _ Hqn Hs) as Hst.
    unfold inv_started in Hst. rewrite H in Hst.
    destruct Hst as (_ & _ & _ & Hnone & _). congruence.
Qed.

(** The [doLookup] that stands at line 45 cancels the context of its class;
    nothing else changes for [Serve] and the goroutine of lines 85-89. *)
Lemma cancel_context g s :
  panicked s = false ->
  (cancelled (race g s) = true \/
   exists c i t, coord (race g s) = Some c /\ tasks c !! i = Some t /\ t_pc t = TCancel) ->
  exists ls s', run ls s = Some s' /\ cancelled (race g s') = true /\
    panicked s' = false /\ serve s' = serve s /\ heap s' = heap s /\
    writes s' = writes s /\ joiner s' = joiner s /\
    root_cancelled s' = root_cancelled s /\
    race (flip g) s' = race (flip g) s.
Proof.
  intros Hp [Hc | (c & i & t & Hc & Hi & Hpc)].
  - exists [], s. by repeat split.
  - exists [LTask g i]. eexists. simpl. unfold step, doLookup_step. rewrite Hp, Hc.
    simpl. rewrite Hi. simpl. rewrite Hpc. split; [done|].
    by destruct g.
Qed.

(** With both child contexts cancelled the goroutine of lines 85-89 runs to
    its [cancel()]. *)
Lemma joiner_finishes s :
  panicked s = false -> is_Some (joiner s) ->
  (joiner s = Some JGone -> root_cancelled s = true) ->
  cancelled (race_t s) = true -> cancelled (race_u s) = true ->
  exists ls s', run ls s = Some s' /\ root_cancelled s' = true /\
    panicked s' = false /\ serve s' = serve s /\ heap s' = heap s /\
    writes s' = writes s.
Proof.
  intros Hp [j Hj] Hgone Ht Hu. destruct j.
  - exists [LJoin; LJoin; LJoin]. eexists. simpl.
    unfold step, joiner_step, done. simpl. rewrite Hp, Hj, Hu. simpl.
    rewrite Hp, Ht. simpl. rewrite Hp. done.
  - exists [LJoin; LJoin]. eexists. simpl.
    unfold step, joiner_step, done. simpl. rewrite Hp, Hj, Ht. simpl.
    rewrite Hp. done.
  - exists [LJoin]. eexists. simpl.
    unfold step, joiner_step. by rewrite Hp, Hj.
  - exists [], s. by rewrite Hgone.
Qed.

(** Once the root context is done, [Serve] leaves the select of a
    [process...Answer] call with the fallback and writes it. *)
Lemma Serve_returns_fallback s other next fallback :
  panicked s = false -> root_cancelled s = true ->
  serve s = SProcess other next fallback -> writes s = [] ->
  fallback < length (heap s) ->
  exists s', run [LDone; LServe; LServe] s = Some s' /\ serve s' = SReturned /\
    writes s' = [Some (setCompress true (deref (heap s) fallback))].
Proof.
  intros Hp Hroot Hpc Hw Hlt. eexists. simpl.
  unfold step, Serve_done, Serve_step. rewrite Hp, Hroot, Hpc. simpl.
  rewrite Hp. simpl. rewrite Hp. simpl. split; [done|]. split; [done|].
  unfold WriteMsg. simpl. rewrite Hw. simpl. unfold deref at 1.
  by rewrite list_lookup_insert_eq.
Qed.

(** When each class has delivered a reply or has its context cancelled, both
    child contexts end and with them the root context: the schedule lets
    the senders run their [cancel()] and then the goroutine of lines 85-89. *)
Lemma contexts_end req s :
  reachable req s -> panicked s = false ->
  (forall g, cancelled (race g s) = true \/ sent (race g s) <> []) ->
  is_Some (joiner s) ->
  exists ls s', run ls s = Some s' /\ root_cancelled s' = true /\
    panicked s' = false /\ serve s' = serve s /\ heap s' = heap s /\
    writes s' = writes s.
Proof.
  intros Hs Hp Hsent Hjoin.
  assert (forall g, cancelled (race g s) = true \/
            exists c i t, coord (race g s) = Some c /\ tasks c !! i = Some t /\
                          t_pc t = TCancel) as Hcan.
  { intros g. destruct (Hsent g) as [Hc | Hne]; [by left|].
    destruct (inv_sender_reachable _ g _ Hs) as [Hnil|Hc]; done. }
  destruct (inv_joiner_reachable _ _ Hs) as [Hgone _].
  destruct (cancel_context Untrusted s Hp (Hcan Untrusted))
    as (ls1 & s1 & Hrun1 & Hu1 & Hp1 & Hpc1 & Hh1 & Hw1 & Hj1 & Hr1 & Ht1).
  simpl in Ht1.
  destruct (cancel_context Trusted s1 Hp1)
    as (ls2 & s2 & Hrun2 & Ht2 & Hp2 & Hpc2 & Hh2 & Hw2 & Hj2 & Hr2 & Hu2).
  { simpl. rewrite Ht1. apply (Hcan Trusted). }
  simpl in Hu2.
  destruct (joiner_finishes s2)
    as (ls3 & s3 & Hrun3 & Hr3 & Hp3 & Hpc3 & Hh3 & Hw3); try done.
  { by rewrite Hj2, Hj1. }
  { rewrite Hj2, Hj1, Hr2, Hr1. done. }
  { simpl in *. by rewrite Hu2. }
  exists (ls1 ++ ls2 ++ ls3), s3.
  rewrite run_app, Hrun1. simpl. rewrite run_app, Hrun2. simpl.
  split; [done|]. split; [done|]. split; [done|].
  by rewrite Hpc3, Hpc2, Hpc1, Hh3, Hh2, Hh1, Hw3, Hw2, Hw1.
Qed.

(** Whatever was taken from a result channel was placed on it. *)
Lemma received_was_sent req g s :
  reachable req s -> recvd (race g s) <> [] -> sent (race g s) <> [].
Proof.
  intros Hs Hne Hnil. pose proof (inv_chan_reachable _ g _ Hs) as Hchan.
  unfold inv_chan in Hchan. rewrite Hnil in Hchan.
  symmetry in Hchan. by apply app_eq_nil in Hchan as [Hr _].
Qed.

(** No panic once something was placed on a result channel. *)
Lemma sent_not_panicked req g s :
  reachable req s -> sent (race g s) <> [] -> panicked s = false.
Proof.
  intros Hs Hsent. destruct (panicked s) eqn:Hp; [exfalso|done].
  destruct (inv_panic_reachable _ _ Hs) as [Hwhy Hdelay].
  destruct (Hwhy Hp) as [Hq | [Hd _]].
  - destruct (empty_question_states _ _ Hq Hs) as [-> | ->]; by destruct g.
  - destruct (Hdelay Hd) as (_ & [Ht _] & [Hu _]). by destruct g.
Qed.

(** Once the root context is done, [Serve] leaves its own select with no
    reply and writes the empty one. *)
Lemma Serve_returns_empty s :
  panicked s = false -> root_cancelled s = true ->
  serve s = SSelect -> writes s = [] ->
  exists s', run [LDone; LServe; LServe] s = Some s' /\ serve s' = SReturned /\
    exists m, writes s' = [Some m].
Proof.
  intros Hp Hroot Hpc Hw. eexists. simpl.
  unfold step, Serve_done, Serve_step. rewrite Hp, Hroot, Hpc. simpl.
  rewrite Hp. simpl. rewrite Hp. simpl. split; [done|]. split; [done|].
  unfold WriteMsg. simpl. rewrite Hw. simpl. by eexists.
Qed.

Lemma set_task_fields i pc c :
  c_pc (set_task i pc c) = c_pc c /\ ticker_C (set_task i pc c) = ticker_C c /\
  wg (set_task i pc c) = wg c /\ queryNext (set_task i pc c) = queryNext c.
Proof. unfold set_task. by destruct (tasks c !! i). Qed.

Lemma succeed_fields i c :
  c_pc (succeed i c) = c_pc c /\ ticker_C (succeed i c) = ticker_C c /\
  wg (succeed i c) = wg c /\ queryNext (succeed i c) = queryNext c.
Proof. unfold succeed. by destruct (first_success c). Qed.

Ltac coord_fields :=
  repeat match goal with
  | |- context [c_pc (succeed ?i ?c)] =>
      rewrite (proj1 (succeed_fields i c))
  | |- context [ticker_C (succeed ?i ?c)] =>
      rewrite (proj1 (proj2 (succeed_fields i c)))
  | |- context [wg (succeed ?i ?c)] =>
      rewrite (proj1 (proj2 (proj2 (succeed_fields i c))))
  | |- context [c_pc (set_task ?i ?pc ?c)] =>
      rewrite (proj1 (set_task_fields i pc c))
  | |- context [ticker_C (set_task ?i ?pc ?c)] =>
      rewrite (proj1 (proj2 (set_task_fields i pc c)))
  | |- context [wg (set_task ?i ?pc ?c)] =>
      rewrite (proj1 (proj2 (proj2 (set_task_fields i pc c))))
  end.

Lemma inv_returned_reachable req g s : reachable req s -> inv_returned g s.
Proof.
  revert s. apply reachable_invariant; [by destruct g|].
  intros l s s' _ Hinv Hstep.
  step_cases Hstep; reply_cases; unfold inv_returned in *; groups; simpl in *;
    try done.
  all: repeat match goal with
       | H : coord _ = _ |- _ => rewrite H in *
       end; simpl in *;
       repeat match goal with
       | H : c_pc _ = _ |- _ => rewrite H in *
       end; simpl in *; try done.
  all: try (unfold next_pc; by destruct (_ <? _)).
  all: coord_fields; simpl.
  all: try (destruct (coord (race_u s)) as [c|]; [|done]).
  all: try match goal with
       | |- context [c_pc ?c] => destruct (c_pc c)
       end; try done; try (destruct_and?; repeat split; congruence).

Qed.

Lemma called_launch ts server :
  called (ts ++ [{| t_server := server; t_pc := TCall |}]) = called ts.
Proof.
  unfold called. rewrite filter_app, filter_cons_False, filter_nil by (simpl; auto).
  by rewrite app_nil_r.
Qed.

Lemma called_insert_returned (ts : list Task) i t pc :
  ts !! i = Some t -> t_pc t = TCall -> pc <> TCall ->
  called (<[i := {| t_server := t_server t; t_pc := pc |}]> ts) ≡ₚ
  called ts ++ [t_server t].
Proof.
  intros Hi Ht Hpc. revert i Hi. induction ts as [|t0 ts IH]; intros i Hi; [done|].
  destruct i as [|i]; simpl in *.
  - simplify_eq. unfold called. rewrite filter_cons_True by done.
    rewrite filter_cons_False by (simpl; auto). simpl.
    by rewrite Permutation_cons_append.
  - specialize (IH i Hi). unfold called in *.
    destruct (decide (t_pc t0 <> TCall)).
    + rewrite !filter_cons_True by done. rewrite !fmap_cons, <- app_comm_cons.
      by apply Permutation_skip.
    + by rewrite !filter_cons_False by done.
Qed.

Lemma called_insert_later (ts : list Task) i t pc :
  ts !! i = Some t -> t_pc t <> TCall -> pc <> TCall ->
  called (<[i := {| t_server := t_server t; t_pc := pc |}]> ts) = called ts.
Proof.
  intros Hi Ht Hpc. revert i Hi. induction ts as [|t0 ts IH]; intros i Hi; [done|].
  destruct i as [|i]; simpl in *.
  - simplify_eq. unfold called. by rewrite !filter_cons_True by done.
  - specialize (IH i Hi). unfold called in *.
    destruct (decide (t_pc t0 <> TCall)).
    + rewrite !filter_cons_True by done. rewrite !fmap_cons. by f_equal.
    + by rewrite !filter_cons_False by done.
Qed.

Lemma lookups_of_snoc g s call :
  lc_server <$> filter (fun c => lc_group c = g) (lookups s ++ [call]) =
  lookups_of g s ++ (if decide (lc_group call = g) then [lc_server call] else []).
Proof.
  unfold lookups_of. rewrite filter_app, fmap_app. f_equal.
  destruct (decide (lc_group call = g)).
  - by rewrite filter_cons_True.
  - by rewrite filter_cons_False.
Qed.

Lemma inv_calls_reachable req g s : reachable req s -> inv_calls g s.
Proof.
  revert s. apply reachable_invariant; [by destruct g|].
  intros l s s' Hs Hinv Hstep.
  pose proof (inv_heap_reachable _ _ Hs) as Hheap.
  pose proof (reachable_question _ _ Hs) as Hq.
  step_cases Hstep; reply_cases; unfold inv_calls in *; simpl in *; try done.
  all: unfold lookups_of in *; simpl in *; rewrite ?lookups_of_snoc; simpl.
  all: groups; simpl in *; try done.
  all: repeat match goal with
       | H : coord _ = _ |- _ => rewrite H in *
       end; simpl in *; try done.
  all: rewrite ?called_launch; try done.
  all: rewrite ?tasks_succeed.
  all: try rewrite decide_False by done; rewrite ?app_nil_r.
  all: try rewrite decide_True by done.
  all: try match goal with
       | H : tasks ?c !! ?i = Some ?t |- context [tasks (set_task ?i ?pc ?c')] =>
           rewrite (set_task_eq i pc c' t H); simpl;
           first [ rewrite called_insert_later by (done || congruence); done
                 | rewrite called_insert_returned by (done || congruence);
                   by rewrite Hinv ]
       end.
  all: try (unfold lookups_of; exact Hinv).
  - destruct Hheap as (_ & _ & _ & _ & Hnone). rewrite H in Hnone.
    destruct Hnone as (_ & Hnone & _). rewrite Hnone in Hinv. by rewrite Hinv.
  - assert (is_Some (qName_of req)) as [qn Hqn] by (by apply Hq).
    pose proof (inv_started_reachable _ _ _ Hqn Hs) as Hst.
    unfold inv_started in Hst. rewrite H in Hst.
    destruct Hst as (_ & _ & _ & Hnone & _). rewrite Hnone in Hinv. by rewrite Hinv.
Qed.

Lemma written_mono req s s' m :
  chan_made s' = chan_made s ->
  recvd (race_t s') = recvd (race_t s) -> recvd (race_u s') = recvd (race_u s) ->
  (forall p m, heap s !! p = Some m -> heap s' !! p = Some m) ->
  written req s m -> written req s' m.
Proof.
  unfold written, request_of. intros -> -> -> Hheap [Hm | (p & Hp & Hcell & Hc)].
  - by left.
  - right. exists p. auto.
Qed.

Lemma lookup_store_grows (h : list Msg) (m arg' : Msg) p m' :
  h !! p = Some m' -> (<[length h := arg']> (h ++ [m])) !! p = Some m'.
Proof.
  intros Hp. pose proof (lookup_lt_Some _ _ _ Hp).
  rewrite list_lookup_insert_ne by lia. by apply lookup_app_l_Some.
Qed.

Lemma deref_alloc_reply (h : list Msg) (m : Msg) :
  deref (<[length h := m]> (h ++ [zeroMsg])) (length h) = m.
Proof.
  unfold deref. rewrite list_lookup_insert_eq; [done|].
  rewrite length_app. simpl. lia.
Qed.

Lemma deref_alloc_new (h : list Msg) (m : Msg) : deref (h ++ [m]) (length h) = m.
Proof. unfold deref. by rewrite list_lookup_middle. Qed.

Lemma deref_app_l (h k : list Msg) p m : h !! p = Some m -> deref (h ++ k) p = m.
Proof. intros Hp. unfold deref. by rewrite (lookup_app_l_Some _ _ _ _ Hp). Qed.

Lemma inv_written_reachable req s : reachable req s -> inv_written req s.
Proof.
  revert s. apply reachable_invariant; [done|].
  intros l s s' Hs Hinv Hstep.
  pose proof (inv_heap_reachable _ _ Hs) as Hheap.
  pose proof (inv_serve_reachable _ _ Hs) as Hserve.
  step_cases Hstep; reply_cases; unfold inv_written in *; simpl in *; try done.
  all: try (intros Hret; destruct (Hinv Hret) as (m & Hw & Hm); exists m;
            split; [done|]; eapply written_mono; [..|exact Hm];
            groups; simpl; try done;
            intros p0 m0 Hp0; repeat apply lookup_store_grows;
            rewrite ?lookup_app_l by (by eapply lookup_lt_Some);
            by repeat apply lookup_store_grows).
  all: try (intros Hret; destruct (Hinv Hret) as (m0 & Hw & Hm); exists m0;
            split; [done|]; eapply written_mono; [..|exact Hm];
            groups; simpl; try done;
            intros p0 m1 Hp0; apply lookup_app_l_Some;
            by apply lookup_store_grows).
  all: intros _; unfold inv_serve in Hserve;
       destruct Hheap as (Hreq & (Hptr & _) & _ & _ & Hmade);
       repeat match goal with
       | H : serve _ = _ |- _ => rewrite H in Hserve, Hptr, Hmade
       end; destruct Hserve as (Hw & Hrecv); rewrite Hw; simpl.
  all: eexists; (split; [reflexivity|]).
  - left. rewrite deref_alloc_reply, deref_alloc_new, (deref_app_l _ _ _ _ Hreq).
    done.
  - right. exists p. simpl in Hptr. apply Forall_singleton in Hptr as [_ Hlt].
    destruct Hrecv as (_ & _ & Hin). split; [done|]. simpl.
    unfold deref. rewrite !list_lookup_insert_eq by done. done.
  - left. rewrite deref_alloc_reply, deref_alloc_new, (deref_app_l _ _ _ _ Hreq).
    done.
Qed.

Lemma run_cons l ls s s' : step l s = Some s' -> run (l :: ls) s = run ls s'.
Proof. intros Hl. simpl. by rewrite Hl. Qed.

(** The schedule on which a coordinator reaches [time.NewTicker]. *)
Lemma coordinator_panics req qName g :
  qName_of req = Some qName -> DomainBlacklist srv qName = false ->
  servers srv g <> [] -> (g = Untrusted -> DomainPolluted srv qName = false) ->
  (Delay srv <=? 0)%Z = true ->
  exists ls s', run ls (init req) = Some s' /\ panicked s' = true.
Proof.
  intros Hq Hb Hg Hpol Hdb.
  destruct (qName_of_Some _ _ Hq) as (q & qs & Hqs & Hname).
  assert (exists s1, step LServe (init req) = Some s1 /\ panicked s1 = false /\
            serve s1 = SNormalize qName) as (s1 & H1 & Hp1 & Hpc1).
  { eexists. unfold step, Serve_step. simpl. unfold deref. simpl.
    rewrite Hqs, Hname, Hb. done. }
  assert (exists s2, step LServe s1 = Some s2 /\ panicked s2 = false /\
            serve s2 = SPolluted qName /\ coord (race_t s2) = Some new_coord)
    as (s2 & H2 & Hp2 & Hpc2 & Hc2).
  { eexists. unfold step, Serve_step. rewrite Hp1, Hpc1. done. }
  destruct g; simpl in Hg.
  - exists [LServe; LServe; LEnter Trusted]. eexists.
    rewrite (run_cons _ _ _ _ H1), (run_cons _ _ _ _ H2). simpl.
    unfold step, lookupInServers_enter. rewrite Hp2. simpl. rewrite Hc2. simpl.
    destruct (TrustedServers srv); [done|]. by rewrite Hdb.
  - assert (exists s3, step LServe s2 = Some s3 /\ panicked s3 = false /\
              coord (race_u s3) = Some new_coord) as (s3 & H3 & Hp3 & Hc3).
    { eexists. unfold step, Serve_step. rewrite Hp2, Hpc2, (Hpol eq_refl). done. }
    exists [LServe; LServe; LServe; LEnter Untrusted]. eexists.
    rewrite (run_cons _ _ _ _ H1), (run_cons _ _ _ _ H2), (run_cons _ _ _ _ H3).
    simpl. unfold step, lookupInServers_enter. rewrite Hp3. simpl. rewrite Hc3. simpl.
    destruct (UntrustedServers srv); [done|]. by rewrite Hdb.
Qed.

(** ** Further properties of the engine *)

(** X2.  [Serve] writes what it should.  Once it has returned it has written
    exactly one message: the empty reply to the request as it stands (for a
    blacklisted name, or when the root context ended with nothing received),
    a response without answer or additional records, or a reply it took
    from a result channel, which by then has [Compress] set. *)
Theorem Serve_writes_a_reply req s :
  reachable req s -> serve s = SReturned ->
  exists m, writes s = [Some m] /\
    ((m = SetReply zeroMsg (request_of req s) /\
      Response m = true /\ Answer m = [] /\ Extra m = []) \/
     exists p, p ∈ recvd (race_t s) ++ recvd (race_u s) /\
       heap s !! p = Some m /\ Compress m = true).
Proof.
  intros Hs Hpc.
  destruct (inv_written_reachable _ _ Hs Hpc) as (m & Hw & [-> | Hreply]).
  - eexists. split; [done|]. left. by repeat split.
  - exists m. split; [done|]. by right.
Qed.


(** X4.  A request without a question: the first statement of [Serve]
    panics, and nothing else ever happens; no context, no goroutine, no
    lookup, nothing written. *)
Theorem empty_question_panics req s :
  Questions req = [] -> reachable req s ->
  step LServe (init req) = Some (panic (init req)) /\
  (s = init req \/ s = panic (init req)) /\
  writes s = [] /\ lookups s = [] /\ ctx_made s = false /\
  forall l s', step l s = Some s' -> s = init req /\ l = LServe.
Proof.
  intros Hq Hs.
  assert (step LServe (init req) = Some (panic (init req))) as Hstep.
  { unfold step, Serve_step. simpl. unfold deref. simpl. by rewrite Hq. }
  split; [done|].
  destruct (empty_question_states _ _ Hq Hs) as [-> | ->].
  - split; [by left|]. split; [done|]. split; [done|]. split; [done|].
    intros l s' Hl. split; [done|].
    unfold step in Hl. simpl in Hl.
    destruct l; simpl in Hl; try done; by destruct g.
  - split; [by right|]. done.
Qed.

(** X5.  With a [Delay] that is not positive no upstream server is ever
    asked and no reply is ever received: a coordinator with servers panics
    in [time.NewTicker] before it starts a query, and for a name that is not
    blacklisted there is a schedule on which it does. *)
Theorem nonpositive_delay req s qName g :
  (Delay srv <= 0)%Z -> reachable req s ->
  (lookups s = [] /\
   forall g', sent (race g' s) = [] /\ recvd (race g' s) = [] /\
              result (race g' s) = None) /\
  (qName_of req = Some qName -> DomainBlacklist srv qName = false ->
   servers srv g <> [] -> (g = Untrusted -> DomainPolluted srv qName = false) ->
   exists ls s', run ls (init req) = Some s' /\ panicked s' = true).
Proof.
  intros Hd Hs. assert ((Delay srv <=? 0)%Z = true) as Hdb by lia. split.
  - destruct (inv_panic_reachable _ _ Hs) as [_ Hdelay].
    destruct (Hdelay Hdb) as (Hnone & [Ht _] & [Hu _]). split; [done|].
    intros g'. pose proof (inv_chan_reachable _ g' _ Hs) as Hchan.
    unfold inv_chan in Hchan.
    assert (sent (race g' s) = []) as Hnil by (by destruct g').
    rewrite Hnil in Hchan. symmetry in Hchan.
    apply app_eq_nil in Hchan as [Hr Ho]. split; [done|]. split; [done|].
    by destruct (result (race g' s)).
  - intros Hq Hb Hg Hpol. by apply (coordinator_panics req qName g).
Qed.

(** X6.  The wait group of a coordinator counts exactly the [doLookup]
    goroutines that have not returned, so [wg.Wait()] lets the coordinator
    go only when there is none left: a coordinator that has returned leaves
    no goroutine behind, has stopped its ticker and cancelled its context. *)
Theorem wait_group_counts_lookups req g s c :
  reachable req s -> coord (race g s) = Some c ->
  wg c = outstanding (tasks c) /\
  (c_pc c = CReturned ->
   Forall (fun t => t_pc t = TGone) (tasks c) /\
   ticker_C c = None /\ cancelled (race g s) = true).
Proof.
  intros Hs Hc.
  pose proof (inv_wg_reachable _ g _ Hs) as Hwg.
  pose proof (inv_returned_reachable _ g _ Hs) as Hret.
  unfold inv_wg, inv_returned in *. rewrite Hc in *.
  split; [done|]. intros Hpc. rewrite Hpc in Hret.
  destruct Hret as (Htick & Hzero & Hcan). split; [|done].
  apply outstanding_0. congruence.
Qed.

(** X7.  After a second suspect verdict [Serve] can still return: both
    classes have delivered, so both child contexts get cancelled, the root
    context ends, and [Serve] writes its fallback, the second reply, with
    [Compress] set.  No state of this kind is a deadlock, and none has
    panicked. *)
Theorem second_verdict_can_return req s next fallback :
  reachable req s -> serve s = SProcess None next fallback ->
  panicked s = false /\
  exists ls s', run ls s = Some s' /\ serve s' = SReturned /\
    writes s' = [Some (setCompress true (deref (heap s) fallback))].
Proof.
  intros Hs Hpc.
  pose proof (inv_serve_reachable _ _ Hs) as Hserve.
  unfold inv_serve in Hserve. rewrite Hpc in Hserve.
  destruct Hserve as (Hw & Hfb & Hnext).
  assert (forall g, sent (race g s) <> []) as Hsent.
  { intros g. apply (received_was_sent req); [done|]. intros Hnil.
    destruct g, next; simpl in *; rewrite Hnil in *; done. }
  assert (panicked s = false) as Hp by (by apply (sent_not_panicked req Trusted)).
  split; [done|].
  destruct (inv_joiner_reachable _ _ Hs) as [_ Hjoin]. rewrite Hpc in Hjoin.
  destruct (inv_heap_reachable _ _ Hs) as (_ & (Hptr & _) & _).
  rewrite Hpc in Hptr. simpl in Hptr. apply Forall_singleton in Hptr as [_ Hlt].
  destruct (contexts_end req s) as (ls & s1 & Hrun & Hr & Hp1 & Hpc1 & Hh & Hw1);
    auto.
  destruct (Serve_returns_fallback s1 None next fallback)
    as (s2 & Hrun2 & Hpc2 & Hw2); try congruence.
  exists (ls ++ [LDone; LServe; LServe]), s2.
  rewrite run_app, Hrun. simpl in *.
  split; [done|]. split; [done|]. by rewrite Hw2, Hh.
Qed.

(** X8.  [Serve] blocked in a select can return as soon as each class has
    either delivered a reply or seen its context cancelled: the contexts of
    both classes then end, the root context ends, and [Serve] writes one
    message.  (The deadlock of the coordinator needs a class whose lookups
    all fail.) *)
Theorem Serve_can_return req s :
  reachable req s -> panicked s = false ->
  (serve s = SSelect \/ exists other next fallback, serve s = SProcess other next fallback) ->
  (forall g, cancelled (race g s) = true \/ sent (race g s) <> []) ->
  exists ls s', run ls s = Some s' /\ serve s' = SReturned /\
    exists m, writes s' = [Some m].
Proof.
  intros Hs Hp Hpc Hsent.
  pose proof (inv_serve_reachable _ _ Hs) as Hserve. unfold inv_serve in Hserve.
  destruct (inv_joiner_reachable _ _ Hs) as [_ Hjoin].
  destruct (inv_heap_reachable _ _ Hs) as (_ & (Hptr & _) & _).
  destruct (contexts_end req s) as (ls & s1 & Hrun & Hr & Hp1 & Hpc1 & Hh & Hw1);
    auto.
  { destruct Hpc as [Hpc | (o & n & f & Hpc)]; by rewrite Hpc in Hjoin. }
  destruct Hpc as [Hpc | (o & n & f & Hpc)]; rewrite Hpc in *.
  - destruct Hserve as (Hw & _).
    destruct (Serve_returns_empty s1) as (s2 & Hrun2 & Hpc2 & Hw2); try congruence.
    exists (ls ++ [LDone; LServe; LServe]), s2.
    rewrite run_app, Hrun. by simpl in *.
  - destruct Hserve as (Hw & _).
    simpl in Hptr. apply Forall_singleton in Hptr as [_ Hlt].
    destruct (Serve_returns_fallback s1 o n f) as (s2 & Hrun2 & Hpc2 & Hw2);
      try congruence.
    exists (ls ++ [LDone; LServe; LServe]), s2.
    rewrite run_app, Hrun. simpl in *. split; [done|]. split; [done|]. by eexists.
Qed.

(** X9.  Every call of a [LookupFunc] for a class goes to a server of that
    class, and no server is asked more often than the list names it: a
    request costs each class at most [len(servers)] queries. *)
Theorem servers_called_at_most_once req g s :
  reachable req s ->
  lookups_of g s ⊆+ servers srv g /\
  length (lookups_of g s) <= length (servers srv g).
Proof.
  intros Hs.
  assert (lookups_of g s ⊆+ servers srv g) as Hsub.
  { pose proof (inv_calls_reachable _ g _ Hs) as Hcalls.
    pose proof (inv_coord_reachable _ g _ Hs) as Hcoord.
    unfold inv_calls, inv_coord in *.
    destruct (coord (race g s)) as [c|]; [|rewrite Hcalls; apply submseteq_nil_l].
    rewrite Hcalls. destruct Hcoord as (Hservers & _).
    trans (t_server <$> tasks c).
    - unfold called. apply sublist_submseteq, fmap_sublist, sublist_filter.
    - rewrite Hservers. apply sublist_submseteq, sublist_take. }
  split; [done|]. by apply submseteq_length.
Qed.

(** ** Every run is finite *)

Lemma task_work_app (ts : list Task) t :
  sum_list (task_work <$> ts ++ [t]) = sum_list (task_work <$> ts) + task_work t.
Proof.
  rewrite fmap_app, sum_list_with_app.
  change (sum_list (task_work <$> [t])) with (task_work t + 0). lia.
Qed.

Lemma task_work_insert (ts : list Task) i t t' :
  ts !! i = Some t ->
  sum_list (task_work <$> <[i := t']> ts) + task_work t =
  sum_list (task_work <$> ts) + task_work t'.
Proof.
  revert i. induction ts as [|t0 ts IH]; intros i Hi; [done|].
  destruct i as [|i]; simpl in Hi.
  - simplify_eq. change (<[0:=t']> (t :: ts)) with (t' :: ts). rewrite !fmap_cons.
    change (sum_list_with id (?a :: ?l)) with (a + sum_list_with id l). lia.
  - specialize (IH i Hi). change (<[S i:=t']> (t0 :: ts)) with (t0 :: <[i:=t']> ts).
    rewrite !fmap_cons.
    change (sum_list_with id (?a :: ?l)) with (a + sum_list_with id l). lia.
Qed.

Lemma set_task_work i pc c t :
  tasks c !! i = Some t ->
  c_pc (set_task i pc c) = c_pc c /\ ticker_C (set_task i pc c) = ticker_C c /\
  sum_list (task_work <$> tasks (set_task i pc c)) + task_work t =
  sum_list (task_work <$> tasks c) + task_work {| t_server := t_server t; t_pc := pc |}.
Proof.
  intros Hi. rewrite (set_task_eq _ _ _ _ Hi). simpl.
  by rewrite (task_work_insert _ _ _ _ Hi).
Qed.

Lemma coord_work_new g : coord_work g new_coord = 7 * length (servers srv g) + 4.
Proof. unfold coord_work, ticker_work, new_coord. cbn [c_pc ticker_C tasks fmap list_fmap sum_list_with]. lia. Qed.

Lemma coord_work_enter_empty g c :
  c_pc c = CEntry -> coord_work g (set_c_pc CReturned c) < coord_work g c.
Proof. unfold coord_work, ticker_work. simpl. intros ->. lia. Qed.

Lemma coord_work_enter g c :
  c_pc c = CEntry ->
  coord_work g (set_c_pc (CLoop 0) (set_queryNext 1 (set_ticker_C (Some false) c)))
  < coord_work g c.
Proof. unfold coord_work, ticker_work. simpl. intros ->. lia. Qed.

Lemma coord_work_break g c i :
  c_pc c = CLoop i -> coord_work g (set_c_pc CWait c) < coord_work g c.
Proof. unfold coord_work, ticker_work. simpl. intros ->. lia. Qed.

Lemma coord_work_launched g c c' i server :
  c_pc c = CLoop i -> servers srv g !! i = Some server -> tasks c' = tasks c ->
  coord_work g (launch g i server c') + 2 + ticker_work c <=
  coord_work g c + ticker_work c'.
Proof.
  intros Hpc Hi Htasks. apply lookup_lt_Some in Hi.
  unfold coord_work, launch. cbn [c_pc ticker_C tasks set_c_pc set_tasks set_wg].
  rewrite Hpc, Htasks, task_work_app.
  assert (ticker_work (set_c_pc (next_pc g i)
            (set_tasks (tasks c ++ [{| t_server := server; t_pc := TCall |}])
               (set_wg (S (wg c')) c'))) = ticker_work c') as -> by done.
  change (task_work {| t_server := server; t_pc := TCall |}) with 5.
  unfold next_pc. destruct (S i <? length (servers srv g)) eqn:Hlt.
  - apply Nat.ltb_lt in Hlt. lia.
  - lia.
Qed.

Lemma coord_work_token g c i server n :
  c_pc c = CLoop i -> servers srv g !! i = Some server ->
  coord_work g (launch g i server (set_queryNext n c)) < coord_work g c.
Proof.
  intros Hpc Hi.
  pose proof (coord_work_launched g c (set_queryNext n c) i server Hpc Hi eq_refl).
  assert (ticker_work (set_queryNext n c) = ticker_work c) by done. lia.
Qed.

Lemma coord_work_ticker g c i server :
  c_pc c = CLoop i -> servers srv g !! i = Some server -> ticker_C c = Some true ->
  coord_work g (launch g i server (set_ticker_C (Some false) c)) < coord_work g c.
Proof.
  intros Hpc Hi Htick.
  pose proof (coord_work_launched g c (set_ticker_C (Some false) c) i server Hpc Hi
                eq_refl).
  assert (ticker_work (set_ticker_C (Some false) c) = 1) by done.
  assert (ticker_work c = 0) by (unfold ticker_work; by rewrite Htick). lia.
Qed.

Lemma coord_work_wait g c :
  c_pc c = CWait ->
  coord_work g (set_c_pc CReturned (set_ticker_C None c)) < coord_work g c.
Proof. unfold coord_work, ticker_work. simpl. intros ->. lia. Qed.

Lemma coord_work_tick g c :
  ticker_C c = Some false ->
  coord_work g (set_ticker_C (Some true) c) < coord_work g c.
Proof. unfold coord_work, ticker_work. simpl. intros ->. lia. Qed.

Lemma coord_work_succeed g i c : coord_work g (succeed i c) = coord_work g c.
Proof. unfold succeed. by destruct (first_success c). Qed.

Lemma coord_work_task g i pc c c' t :
  c_pc c' = c_pc c -> ticker_C c' = ticker_C c -> tasks c' = tasks c ->
  tasks c !! i = Some t ->
  task_work {| t_server := t_server t; t_pc := pc |} < task_work t ->
  coord_work g (set_task i pc c') < coord_work g c.
Proof.
  intros Hpc Htick Htasks Hi Hless. rewrite <- Htasks in Hi.
  destruct (set_task_work i pc c' t Hi) as (Hpc' & Htick' & Hsum).
  unfold coord_work, ticker_work. rewrite Hpc', Htick', Hpc, Htick.
  rewrite <- Htasks. lia.
Qed.

Lemma step_work l s s' : step l s = Some s' -> work s' < work s.
Proof.
  intros Hstep. step_cases Hstep; reply_cases;
    unfold work, serve_work, joiner_work, race_work; simpl;
    repeat match goal with
    | H : panicked _ = _ |- _ => rewrite H
    | H : serve _ = _ |- _ => rewrite H
    | H : joiner _ = _ |- _ => rewrite H
    end; simpl; try lia.
  all: groups; simpl in *;
    repeat match goal with
    | H : coord _ = _ |- _ => rewrite H
    end; simpl; try lia.
  all: rewrite ?coord_work_new; simpl; try lia.
  all: try (destruct other; lia).
  all: rewrite ?coord_work_succeed.
  all: try match goal with
       | H : coord _ = Some ?c |- context [coord_work ?g ?c'] =>
           lazymatch c' with
           | c => fail
           | _ =>
               assert (coord_work g c' < coord_work g c)
                 by first
                      [ by apply coord_work_enter_empty
                      | by apply coord_work_enter
                      | by eapply coord_work_break
                      | by apply coord_work_wait
                      | by apply coord_work_tick
                      | eapply coord_work_task; [..|done|]; try done;
                        unfold task_work; simpl;
                        repeat match goal with
                        | H : t_pc _ = _ |- _ => rewrite H
                        end; lia
                      | by eapply coord_work_token
                      | by eapply coord_work_ticker ]
           end
       end; try lia.
Qed.

Lemma run_work ls s s' : run ls s = Some s' -> length ls + work s' <= work s.
Proof.
  revert s. induction ls as [|l ls IH]; intros s Hrun; simpl in Hrun.
  { simplify_eq. simpl. lia. }
  destruct (step l s) as [s1|] eqn:Hstep; [|done].
  apply step_work in Hstep. apply IH in Hrun. simpl. lia.
Qed.

(** X20.  Every run is finite.  Each step of [Serve], of the goroutine of
    lines 85-89, of a coordinator, of a [doLookup] and of the ticker lowers
    a measure that starts at [23 + 7 * (len(trusted) + len(untrusted))]: no
    schedule spins, and a request is over (returned, blocked for good, or
    panicked) within that many steps. *)
Theorem runs_are_bounded req ls s :
  run ls (init req) = Some s ->
  length ls + work s <= work (init req) /\
  work (init req) =
    23 + 7 * (length (TrustedServers srv) + length (UntrustedServers srv)) /\
  (forall l s', step l s = Some s' -> work s' < work s).
Proof.
  intros Hrun. split; [by apply run_work|]. split.
  - unfold work, serve_work, joiner_work, race_work. simpl. lia.
  - intros l s'. apply step_work.
Qed.

(** ** What a hang looks like *)

Lemma inv_ticker_reachable req g s : reachable req s -> inv_ticker g s.
Proof.
  revert s. apply reachable_invariant; [by destruct g|].
  intros l s s' _ Hinv Hstep.
  step_cases Hstep; reply_cases; unfold inv_ticker in *; groups; simpl in *;
    try done.
  all: repeat match goal with
       | H : coord _ = _ |- _ => rewrite H in *
       end; simpl in *;
       repeat match goal with
       | H : c_pc _ = _ |- _ => rewrite H in *
       end; simpl in *; try done.
  all: try (unfold next_pc; by destruct (_ <? _)).
  all: coord_fields; simpl.
  all: try (destruct (coord (race_u s)) as [c|]; [|done]).
  all: try match goal with
       | |- context [c_pc ?c] => destruct (c_pc c)
       end; try done.

Qed.

Lemma outstanding_task (ts : list Task) :
  0 < outstanding ts -> exists i t, ts !! i = Some t /\ t_pc t <> TGone.
Proof.
  induction ts as [|t ts IH]; intros Hpos; [by apply Nat.lt_irrefl in Hpos|].
  destruct (decide (t_pc t = TGone)) as [Ht|Ht]; [|by exists 0, t].
  destruct IH as (i & t' & Hi & Ht'); [|by exists (S i), t'].
  unfold outstanding in *. rewrite fmap_cons in Hpos.
  change (sum_list_with id (?a :: ?l)) with (a + sum_list_with id l) in Hpos.
  unfold running in Hpos at 1. rewrite Ht in Hpos. lia.
Qed.

(** A coordinator in its loop, or about to start, can always move. *)
Lemma coordinator_moves req g s c :
  reachable req s -> panicked s = false -> coord (race g s) = Some c ->
  (forall l, step l s = None) -> c_pc c = CWait \/ c_pc c = CReturned.
Proof.
  intros Hs Hp Hc Hstuck.
  pose proof (inv_coord_reachable _ g _ Hs) as Hok.
  pose proof (inv_ticker_reachable _ g _ Hs) as Htick.
  unfold inv_coord, inv_ticker in *. rewrite Hc in *.
  destruct (c_pc c) as [|i| |] eqn:Hpc; auto; exfalso.
  - specialize (Hstuck (LEnter g)). unfold step, lookupInServers_enter in Hstuck.
    rewrite Hp, Hc in Hstuck. simpl in Hstuck. rewrite Hpc in Hstuck.
    destruct (servers srv g); [done|]. by destruct (Delay srv <=? 0)%Z.
  - unfold coord_ok in Hok. cbv zeta in Hok. rewrite ?Hpc in Hok.
    destruct Hok as (_ & _ & _ & [_ Hlt] & _).
    destruct (lookup_lt_is_Some_2 _ _ Hlt) as [server Hserver].
    destruct Htick as [[] Hb].
    + specialize (Hstuck (LTicker g)). unfold step, lookupInServers_ticker in Hstuck.
      rewrite Hp, Hc in Hstuck. simpl in Hstuck.
      rewrite Hpc, Hserver in Hstuck. simpl in Hstuck. by rewrite Hb in Hstuck.
    + specialize (Hstuck (LTick g)). unfold step, tick in Hstuck.
      rewrite Hp, Hc in Hstuck. simpl in Hstuck. by rewrite Hb in Hstuck.
Qed.

(** In a state with no step left every [doLookup] has returned or stands
    before the send on a full [queryNext]. *)
Lemma tasks_blocked g s c i t :
  panicked s = false -> coord (race g s) = Some c -> tasks c !! i = Some t ->
  (forall l, step l s = None) ->
  t_pc t = TGone \/ (t_pc t = TErr /\ length (servers srv g) <= queryNext c).
Proof.
  intros Hp Hc Hi Hstuck.
  pose proof (Hstuck (LTask g i)) as Htask.
  pose proof (Hstuck (LLookup g i zeroMsg LookupErr)) as Hlookup.
  unfold step, doLookup_step, doLookup_lookup in *.
  rewrite Hp, Hc in *. simpl in *. rewrite Hi in *. simpl in *.
  destruct (t_pc t); try done; auto.
  - right. split; [done|].
    destruct (queryNext c <? length (servers srv g)) eqn:Hlt; [done|].
    by apply Nat.ltb_ge in Hlt.
  - by destruct (wg c).
Qed.

(** X21.  The only way [Serve] hangs.  If nothing can move any more, nobody
    has panicked and [Serve] has not returned, then [Serve] is blocked in a
    select and some class is jammed on [queryNext]: its context is live, its
    coordinator waits in [wg.Wait()], it has delivered nothing, and each
    [doLookup] still there has failed and is blocked sending its permit to
    the full channel. *)
Theorem hang_is_a_jam req s :
  reachable req s -> panicked s = false -> serve s <> SReturned ->
  (forall l, step l s = None) ->
  (serve s = SSelect \/
   exists other next fallback, serve s = SProcess other next fallback) /\
  exists g, jammed g s.
Proof.
  intros Hs Hp Hret Hstuck.
  (* [Serve] is in a select *)
  assert (serve s = SSelect \/
          exists other next fallback, serve s = SProcess other next fallback) as Hpc.
  { pose proof (Hstuck LServe) as Hserve. unfold step, Serve_step in Hserve.
    rewrite Hp in Hserve.
    destruct (serve s) eqn:Hpc; try done; eauto; exfalso;
      repeat case_match; done. }
  split; [done|].
  assert (serve s <> SEntry) as Hentry by (destruct Hpc as [->|(?&?&?&->)]; done).
  (* the root context is live *)
  assert (root_cancelled s = false) as Hroot.
  { pose proof (Hstuck LDone) as Hdone. unfold step, Serve_done in Hdone.
    rewrite Hp in Hdone. destruct (root_cancelled s); [|done].
    destruct Hpc as [Hpc|(?&?&?&Hpc)]; by rewrite Hpc in Hdone. }
  (* so the goroutine of lines 85-89 waits for a child context *)
  assert (exists g, cancelled (race g s) = false) as [g Hlive].
  { destruct (inv_joiner_reachable _ _ Hs) as [Hgone Hjoin].
    assert (is_Some (joiner s)) as [j Hj]
      by (destruct Hpc as [Hpc|(?&?&?&Hpc)]; by rewrite Hpc in Hjoin).
    pose proof (Hstuck LJoin) as Hjoiner. unfold step, joiner_step, done in Hjoiner.
    rewrite Hp, Hj, Hroot in Hjoiner. destruct j.
    - exists Untrusted. by destruct (cancelled (race Untrusted s)).
    - exists Trusted. by destruct (cancelled (race Trusted s)).
    - done.
    - specialize (Hgone Hj). congruence. }
  (* that class has a coordinator *)
  assert (is_Some (coord (race g s))) as [c Hc].
  { destruct (reachable_question _ _ Hs Hentry) as [qName Hq].
    pose proof (inv_started_reachable _ _ _ Hq Hs) as Hstarted.
    unfold inv_started in Hstarted.
    assert (started qName s) as (_ & Ht & Hu)
      by (destruct Hpc as [Hpc|(?&?&?&Hpc)]; by rewrite Hpc in Hstarted).
    destruct g; [done|]. destruct (DomainPolluted srv qName); [|done].
    destruct Hu as [_ Hu]. simpl in Hlive. congruence. }
  exists g, c. split; [done|]. split; [done|]. split; [done|].
  (* which waits for its tasks *)
  assert (c_pc c = CWait) as Hwait.
  { destruct (coordinator_moves req g s c) as [?|Hreturned]; try done.
    pose proof (inv_returned_reachable _ g _ Hs) as Hr. unfold inv_returned in Hr.
    rewrite Hc, Hreturned in Hr. destruct Hr as (_ & _ & Hr). congruence. }
  assert (0 < wg c) as Hwg.
  { pose proof (Hstuck (LWait g)) as Hw. unfold step, lookupInServers_wait in Hw.
    rewrite Hp, Hc in Hw. simpl in Hw. rewrite Hwait in Hw.
    destruct (wg c); [done|lia]. }
  assert (forall i t, tasks c !! i = Some t ->
            t_pc t = TGone \/ (t_pc t = TErr /\ length (servers srv g) <= queryNext c))
    as Htasks by (intros i t Hi; by apply (tasks_blocked g s c i t)).
  assert (exists i t, tasks c !! i = Some t /\ t_pc t = TErr /\
            length (servers srv g) <= queryNext c) as (i & t & Hi & Ht & Hfull).
  { pose proof (inv_wg_reachable _ g _ Hs) as Hcount. unfold inv_wg in Hcount.
    rewrite Hc in Hcount. rewrite Hcount in Hwg.
    destruct (outstanding_task _ Hwg) as (i & t & Hi & Ht).
    exists i, t. destruct (Htasks i t Hi) as [?|[? ?]]; done. }
  split.
  { destruct (inv_sender_reachable _ g _ Hs) as [?|[?|(c' & j & t' & Hc' & Hj & Ht')]];
      [done|congruence|].
    simplify_eq. destruct (Htasks j t' Hj) as [?|[? ?]]; congruence. }
  split; [done|]. split; [done|]. split; [done|]. split; [|by exists i, t].
  apply Forall_lookup. intros j t' Hj. destruct (Htasks j t' Hj) as [?|[? ?]]; auto.
Qed.

End Engine.

(** ** The program on particular inputs *)

(** C1 (the program departs from the claim).  With the default server lists
    and a request for a name on no list, there is a schedule after which
    [Serve] sits in its select, [w.WriteMsg] was never called, no goroutine
    has panicked, and no step is possible: both untrusted resolvers were
    admitted by the ticker, both failed, and the second failing task blocks
    for ever on [queryNext], whose capacity [len(servers)] holds the seed
    permit and one failure only. *)
Theorem C1_Serve_blocks_before_writing :
  exists s, run keep_size srv_default sched_deadlock (init demo_req) = Some s /\
    panicked s = false /\ serve s = SSelect /\ writes s = [] /\
    forall l, step keep_size srv_default l s = None.
Proof.
  eexists. split; [vm_compute; reflexivity|].
  repeat split.
  intros l. destruct l as [ | g | | | g | g | g | g | g | g | g i arg' r | g i];
    try destruct g; try reflexivity;
    destruct i as [|[|i]]; reflexivity.
Qed.

(** C2, as stated, fails: on this schedule two values are placed on the
    untrusted channel during one request. *)
Lemma C2_two_values_placed :
  exists s, run keep_size srv_default sched_two_sends (init demo_req) = Some s /\
    sent (race Untrusted s) = [2; 4] /\
    ~ length (sent (race Untrusted s)) <= 1.
Proof.
  eexists. split; [vm_compute; reflexivity|]. split; [reflexivity|].
  simpl. lia.
Qed.

Lemma C2_witness :
  exists s, reachable keep_size srv_default demo_req s /\
    recvd (race Untrusted s) = [2] /\
    length (sent (race Untrusted s)) <= 2.
Proof.
  assert (exists s, run keep_size srv_default sched_two_sends (init demo_req) = Some s)
    as [s Hs] by (eexists; vm_compute; reflexivity).
  exists s. assert (reachable keep_size srv_default demo_req s) as Hr
    by (by exists sched_two_sends).
  split; [exact Hr|]. split.
  - vm_compute in Hs. by simplify_eq.
  - exact (proj1 (proj2 (proj2
      (C2_result_channel keep_size srv_default demo_req Untrusted s Hr)))).
Defined.


Lemma C4_witness :
  qName_of demo_req = Some "example.com."%string /\
  DomainBlacklist srv_blacklist "example.com." = true /\
  exists s, reachable keep_size srv_blacklist demo_req s /\
    serve s = SReturned /\ lookups s = [] /\
    writes s = [Some (SetReply zeroMsg demo_req)].
Proof.
  split; [reflexivity|]. split; [reflexivity|].
  assert (exists s, run keep_size srv_blacklist [LServe] (init demo_req) = Some s)
    as [s Hs] by (eexists; vm_compute; reflexivity).
  exists s. assert (reachable keep_size srv_blacklist demo_req s) as Hr
    by (by exists [LServe]).
  assert (serve s = SReturned) as Hpc by (vm_compute in Hs; by simplify_eq).
  split; [exact Hr|]. split; [exact Hpc|].
  destruct (proj2 (C4_blacklisted keep_size srv_blacklist "example.com." demo_req s
                     eq_refl eq_refl Hr)) as [Hinit | Hfinal].
  - rewrite Hinit in Hpc. discriminate Hpc.
  - split; [apply Hfinal|apply Hfinal].
Defined.

Lemma C5_witness :
  qName_of demo_req = Some "example.com."%string /\
  DomainBlacklist srv_polluted "example.com." = false /\
  DomainPolluted srv_polluted "example.com." = true /\
  exists s, reachable keep_size srv_polluted demo_req s /\
    serve s = SSelect /\
    coord (race_u s) = None /\ is_Some (coord (race_t s)).
Proof.
  split; [reflexivity|]. split; [reflexivity|]. split; [reflexivity|].
  assert (exists s, run keep_size srv_polluted sched_setup (init demo_req) = Some s)
    as [s Hs] by (eexists; vm_compute; reflexivity).
  exists s. assert (reachable keep_size srv_polluted demo_req s) as Hr
    by (by exists sched_setup).
  assert (serve s = SSelect) as Hpc by (vm_compute in Hs; by simplify_eq).
  pose proof (C5_polluted keep_size srv_polluted "example.com." demo_req s
                eq_refl eq_refl Hr) as [Hu Ht].
  rewrite Hpc in Ht.
  split; [exact Hr|]. split; [exact Hpc|]. split; [exact (proj1 (Hu eq_refl))|exact Ht].
Defined.

Lemma C6_witness :
  exists s, run keep_size srv_default sched_domestic (init demo_req) = Some s /\
    panicked s = false /\ serve s = SSelect /\
    result (race_u s) = Some 2 /\
    representative_of (deref (heap s) 2) = Some ip_domestic /\
    fst (IPBlacklist srv_default ip_domestic) = false /\
    fst (ChinaCIDR srv_default ip_domestic) = true /\
    exists s', step keep_size srv_default (LRecv Untrusted) s = Some s' /\
      serve s' = SCancel (Some 2).
Proof.
  eexists. split; [vm_compute; reflexivity|].
  match goal with
  | |- panicked ?s = false /\ _ =>
      pose proof (C6_domestic_accepted keep_size srv_default s 2 ip_domestic
                    eq_refl eq_refl eq_refl eq_refl eq_refl eq_refl) as H6
  end.
  split; [reflexivity|]. split; [reflexivity|]. split; [reflexivity|].
  split; [reflexivity|]. split; [reflexivity|]. split; [reflexivity|].
  destruct (proj2 H6) as (s' & Hstep & Hpc & _).
  exists s'. split; [exact Hstep|exact Hpc].
Defined.

Lemma C7_witness :
  TrustedServers srv_none = [] /\ UntrustedServers srv_none = [] /\
  qName_of demo_req = Some "example.com."%string /\
  DomainBlacklist srv_none "example.com." = false /\
  exists s, reachable keep_size srv_none demo_req s /\
    serve s = SReturned /\
    writes s = [Some (SetReply zeroMsg (normalizeRequest keep_size srv_none demo_req))].
Proof.
  split; [reflexivity|]. split; [reflexivity|]. split; [reflexivity|].
  split; [reflexivity|].
  assert (exists s, run keep_size srv_none sched_no_servers (init demo_req) = Some s)
    as [s Hs] by (eexists; vm_compute; reflexivity).
  exists s. assert (reachable keep_size srv_none demo_req s) as Hr
    by (by exists sched_no_servers).
  assert (serve s = SReturned) as Hpc by (vm_compute in Hs; by simplify_eq).
  split; [exact Hr|]. split; [exact Hpc|].
  pose proof (C7_no_servers_terminates keep_size srv_none eq_refl eq_refl
                "example.com." demo_req s eq_refl eq_refl Hr) as H7.
  exact (proj1 (proj2 (proj2 (proj2 (proj2 (proj2 H7)))) Hpc)).
Defined.

(** C8, as stated, fails: the context handed to [lookupInServers] is not
    cancelled before the call with the empty trusted list and is cancelled
    after it. *)
Lemma C8_context_is_cancelled :
  exists s s', run keep_size srv_default [LServe; LServe] (init demo_req) = Some s /\
    servers srv_default Trusted = [] /\
    step keep_size srv_default (LEnter Trusted) s = Some s' /\
    done Trusted s = false /\ done Trusted s' = true /\
    cancelled (race_t s') <> cancelled (race_t s).
Proof.
  eexists _, _. split; [vm_compute; reflexivity|]. split; [reflexivity|].
  split; [vm_compute; reflexivity|]. by repeat split.
Qed.

Lemma C8_witness :
  exists s c, run keep_size srv_default [LServe; LServe] (init demo_req) = Some s /\
    servers srv_default Trusted = [] /\ panicked s = false /\
    coord (race Trusted s) = Some c /\ c_pc c = CEntry /\
    exists s', step keep_size srv_default (LEnter Trusted) s = Some s' /\
      cancelled (race Trusted s') = true /\ heap s' = heap s.
Proof.
  eexists _, _. split; [vm_compute; reflexivity|].
  split; [reflexivity|]. split; [reflexivity|]. split; [reflexivity|].
  split; [reflexivity|].
  match goal with
  | |- exists s', step _ _ _ ?s = Some s' /\ _ =>
      destruct (C8_empty_list keep_size srv_default Trusted s new_coord
                  eq_refl eq_refl eq_refl eq_refl) as (s' & Hstep & H)
  end.
  exists s'. split; [exact Hstep|]. split; apply H.
Defined.



Lemma C10_witness :
  exists s, reachable keep_size srv_default demo_req s /\ chan_made s = true /\
    length (lookups s) = 2 /\
    heap s !! req_ptr = Some (normalizeRequest keep_size srv_default demo_req).
Proof.
  assert (exists s, run keep_size srv_default sched_two_sends (init demo_req) = Some s)
    as [s Hs] by (eexists; vm_compute; reflexivity).
  exists s. assert (reachable keep_size srv_default demo_req s) as Hr
    by (by exists sched_two_sends).
  assert (chan_made s = true /\ length (lookups s) = 2) as [Hmade Hlen]
    by (vm_compute in Hs; by simplify_eq).
  split; [exact Hr|]. split; [exact Hmade|]. split; [exact Hlen|].
  exact (proj1 (C10_request_not_shared keep_size srv_default demo_req s Hr Hmade)).
Defined.

(** ** Further properties on particular inputs *)

(** [Serve] has written once on the run that serves the domestic reply. *)
Lemma Serve_writes_at_most_once_witness :
  exists s, reachable keep_size srv_default demo_req s /\
    serve s = SReturned /\ length (writes s) <= 1 /\ exists m, writes s = [Some m].
Proof.
  assert (exists s, run keep_size srv_default sched_served (init demo_req) = Some s)
    as [s Hs] by (eexists; vm_compute; reflexivity).
  exists s. assert (reachable keep_size srv_default demo_req s) as Hr
    by (by exists sched_served).
  assert (serve s = SReturned) as Hpc by (vm_compute in Hs; by simplify_eq).
  pose proof (Serve_writes_at_most_once keep_size srv_default demo_req s Hr)
    as (Hlen & _ & Hret & _).
  split; [exact Hr|]. split; [exact Hpc|]. split; [exact Hlen|exact (Hret Hpc)].
Defined.

(** The same run: what was written is the reply taken from the untrusted
    channel. *)
Lemma Serve_writes_a_reply_witness :
  exists s, reachable keep_size srv_default demo_req s /\ serve s = SReturned /\
    exists m, writes s = [Some m] /\
      ((m = SetReply zeroMsg (request_of keep_size srv_default demo_req s) /\
        Response m = true /\ Answer m = [] /\ Extra m = []) \/
       exists p, p ∈ recvd (race_t s) ++ recvd (race_u s) /\
         heap s !! p = Some m /\ Compress m = true).
Proof.
  assert (exists s, run keep_size srv_default sched_served (init demo_req) = Some s)
    as [s Hs] by (eexists; vm_compute; reflexivity).
  exists s. assert (reachable keep_size srv_default demo_req s) as Hr
    by (by exists sched_served).
  assert (serve s = SReturned) as Hpc by (vm_compute in Hs; by simplify_eq).
  split; [exact Hr|]. split; [exact Hpc|].
  exact (Serve_writes_a_reply keep_size srv_default demo_req s Hr Hpc).
Defined.


(** A request with an empty question section, after the panic. *)
Lemma empty_question_panics_witness :
  exists s, reachable keep_size srv_both req_no_question s /\ panicked s = true /\
    (s = init req_no_question \/ s = panic (init req_no_question)) /\
    writes s = [] /\ lookups s = [].
Proof.
  assert (exists s, run keep_size srv_both [LServe] (init req_no_question) = Some s)
    as [s Hs] by (eexists; vm_compute; reflexivity).
  exists s. assert (reachable keep_size srv_both req_no_question s) as Hr
    by (by exists [LServe]).
  assert (panicked s = true) as Hp by (vm_compute in Hs; by simplify_eq).
  split; [exact Hr|]. split; [exact Hp|].
  pose proof (empty_question_panics keep_size srv_both req_no_question s eq_refl Hr)
    as (_ & Hstates & Hw & Hl & _).
  split; [exact Hstates|]. split; [exact Hw|exact Hl].
Defined.

(** [Delay] at zero: nothing was asked, and there is a run that panics. *)
Lemma nonpositive_delay_witness :
  exists s, reachable keep_size srv_no_delay demo_req s /\
    lookups s = [] /\
    exists ls s', run keep_size srv_no_delay ls (init demo_req) = Some s' /\
      panicked s' = true.
Proof.
  assert (exists s, run keep_size srv_no_delay sched_setup (init demo_req) = Some s)
    as [s Hs] by (eexists; vm_compute; reflexivity).
  exists s. assert (reachable keep_size srv_no_delay demo_req s) as Hr
    by (by exists sched_setup).
  assert ((Delay srv_no_delay <= 0)%Z) as Hd by (vm_compute; discriminate).
  pose proof (nonpositive_delay keep_size srv_no_delay demo_req s
                "example.com."%string Trusted Hd Hr) as [[Hnone _] Hrun].
  split; [exact Hr|]. split; [exact Hnone|].
  apply Hrun; [reflexivity|reflexivity|discriminate|discriminate].
Defined.

(** The coordinator that has returned after one successful lookup. *)
Lemma wait_group_counts_lookups_witness :
  exists s c, reachable keep_size srv_default demo_req s /\
    coord (race Untrusted s) = Some c /\ c_pc c = CReturned /\
    wg c = outstanding (tasks c) /\
    Forall (fun t => t_pc t = TGone) (tasks c) /\
    ticker_C c = None /\ cancelled (race Untrusted s) = true.
Proof.
  assert (exists s, run keep_size srv_default sched_coordinator_returns (init demo_req)
                    = Some s) as [s Hs] by (eexists; vm_compute; reflexivity).
  assert (reachable keep_size srv_default demo_req s) as Hr
    by (by exists sched_coordinator_returns).
  assert (exists c, coord (race Untrusted s) = Some c /\ c_pc c = CReturned)
    as (c & Hc & Hpc) by (vm_compute in Hs; simplify_eq; by eexists).
  exists s, c.
  pose proof (wait_group_counts_lookups keep_size srv_default demo_req Untrusted s c
                Hr Hc) as [Hwg Hret].
  split; [exact Hr|]. split; [exact Hc|]. split; [exact Hpc|]. split; [exact Hwg|].
  exact (Hret Hpc).
Defined.

(** The state after a second suspect verdict. *)
Lemma second_verdict_can_return_witness :
  exists s, reachable keep_size srv_both demo_req s /\
    serve s = SProcess None Untrusted 4 /\ panicked s = false /\
    exists ls s', run keep_size srv_both ls s = Some s' /\ serve s' = SReturned /\
      writes s' = [Some (setCompress true (deref (heap s) 4))].
Proof.
  assert (exists s, run keep_size srv_both sched_second_verdict (init demo_req) = Some s)
    as [s Hs] by (eexists; vm_compute; reflexivity).
  exists s. assert (reachable keep_size srv_both demo_req s) as Hr
    by (by exists sched_second_verdict).
  assert (serve s = SProcess None Untrusted 4) as Hpc
    by (vm_compute in Hs; by simplify_eq).
  split; [exact Hr|]. split; [exact Hpc|].
  exact (second_verdict_can_return keep_size srv_both demo_req s Untrusted 4 Hr Hpc).
Defined.

(** The untrusted class has delivered, the trusted one has no server. *)
Lemma Serve_can_return_witness :
  exists s, reachable keep_size srv_default demo_req s /\
    panicked s = false /\ serve s = SSelect /\
    cancelled (race Trusted s) = true /\ sent (race Untrusted s) <> [] /\
    exists ls s', run keep_size srv_default ls s = Some s' /\ serve s' = SReturned /\
      exists m, writes s' = [Some m].
Proof.
  assert (exists s, run keep_size srv_default sched_delivered (init demo_req) = Some s)
    as [s Hs] by (eexists; vm_compute; reflexivity).
  exists s. assert (reachable keep_size srv_default demo_req s) as Hr
    by (by exists sched_delivered).
  assert (panicked s = false /\ serve s = SSelect /\
          cancelled (race Trusted s) = true /\ sent (race Untrusted s) <> [])
    as (Hp & Hpc & Ht & Hu) by (vm_compute in Hs; by simplify_eq).
  split; [exact Hr|]. split; [exact Hp|]. split; [exact Hpc|].
  split; [exact Ht|]. split; [exact Hu|].
  apply (Serve_can_return keep_size srv_default demo_req s Hr Hp (or_introl Hpc)).
  intros [|]; [left; exact Ht|right; exact Hu].
Defined.

(** Two untrusted resolvers, both asked once. *)
Lemma servers_called_at_most_once_witness :
  exists s, reachable keep_size srv_default demo_req s /\
    lookups_of Untrusted s = [resolver_a; resolver_b] /\
    lookups_of Untrusted s ⊆+ servers srv_default Untrusted /\
    length (lookups_of Untrusted s) <= length (servers srv_default Untrusted).
Proof.
  assert (exists s, run keep_size srv_default sched_two_sends (init demo_req) = Some s)
    as [s Hs] by (eexists; vm_compute; reflexivity).
  exists s. assert (reachable keep_size srv_default demo_req s) as Hr
    by (by exists sched_two_sends).
  assert (lookups_of Untrusted s = [resolver_a; resolver_b]) as Hl
    by (vm_compute in Hs; by simplify_eq).
  split; [exact Hr|]. split; [exact Hl|].
  exact (servers_called_at_most_once keep_size srv_default demo_req Untrusted s Hr).
Defined.

(** ** The classifier on its own *)

Lemma processReply_range_skips s rep other process len i rrs :
  len = i + length rrs ->
  processReply_range s rep other process len i rrs =
  match skip_aliases rrs with
  | RR_A a :: _ | RR_AAAA a :: _ => process s rep a other
  | _ => Return rep
  end.
Proof.
  revert i. induction rrs as [|rr rrs IH]; intros i Hlen; [done|].
  destruct rr; simpl; try done.
  simpl in Hlen. destruct rrs as [|rr' rrs'].
  - simpl. by destruct (i <? len - 1).
  - assert ((i <? len - 1) = true) as -> by (apply Nat.ltb_lt; simpl in Hlen; lia).
    apply IH. simpl in *. lia.
Qed.

(** X10.  [processReply] decides on the first record that is not a CNAME,
    whatever follows it: an A or AAAA record there hands its address to the
    rule of the class; any other record, an answer of CNAMEs only and an
    empty answer make it return the reply as it is. *)
Theorem processReply_first_record s h rep other process :
  processReply s h rep other process =
  match skip_aliases (Answer (deref h rep)) with
  | RR_A a :: _ | RR_AAAA a :: _ => process s rep a other
  | _ => Return rep
  end.
Proof. unfold processReply. by apply processReply_range_skips. Qed.

(** X11.  The two rules against each other.  An address on the IP blacklist
    is accepted by neither.  In bidirectional mode an address that is not
    blacklisted is accepted by exactly one of them: by the untrusted rule if
    it is domestic, by the trusted rule if it is not.  Without bidirectional
    mode the trusted rule accepts every address that is not blacklisted.
    The errors of the two [Contains] calls change nothing. *)
Theorem rules_complement s rep answer other :
  let accepts (g : group) := process_of g s rep answer other = Return rep in
  let waits (g : group) := process_of g s rep answer other = Select other (flip g) rep in
  (forall g, accepts g \/ waits g) /\
  (fst (IPBlacklist s answer) = true -> waits Untrusted /\ waits Trusted) /\
  (fst (IPBlacklist s answer) = false ->
   (accepts Untrusted <-> fst (ChinaCIDR s answer) = true) /\
   (accepts Trusted <-> Bidirectional s = false \/ fst (ChinaCIDR s answer) = false)) /\
  (fst (IPBlacklist s answer) = false -> Bidirectional s = true ->
   (accepts Untrusted <-> waits Trusted) /\ (accepts Trusted <-> waits Untrusted)).
Proof.
  assert (processUntrustedAnswer s rep answer other =
          if fst (IPBlacklist s answer) then Select other Trusted rep
          else if fst (ChinaCIDR s answer) then Return rep
          else Select other Trusted rep) as Hu.
  { unfold processUntrustedAnswer.
    by destruct (IPBlacklist s answer) as [[] ?], (ChinaCIDR s answer) as [[] ?]. }
  assert (processTrustedAnswer s rep answer other =
          if fst (IPBlacklist s answer) then Select other Untrusted rep
          else if negb (Bidirectional s) then Return rep
          else if negb (fst (ChinaCIDR s answer)) then Return rep
          else Select other Untrusted rep) as Ht.
  { unfold processTrustedAnswer.
    by destruct (IPBlacklist s answer) as [[] ?], (ChinaCIDR s answer) as [[] ?]. }
  simpl. rewrite Hu, Ht.
  split.
  { intros []; simpl; [rewrite Ht|rewrite Hu];
      destruct (fst (IPBlacklist s answer)), (fst (ChinaCIDR s answer)),
        (Bidirectional s); simpl; auto. }
  destruct (fst (IPBlacklist s answer)), (fst (ChinaCIDR s answer)),
    (Bidirectional s); simpl; repeat split; try done; auto;
    try (intros; discriminate); try (intros [|]; discriminate).
Qed.

(** X12.  A reply whose first address is on the IP blacklist is never
    returned by [processReply] at first sight, whichever class it came
    from: the call waits for the other class, and the reply can only come
    back as the fallback of that wait. *)
Theorem blacklisted_is_fallback_only s h rep other g answer rest :
  skip_aliases (Answer (deref h rep)) = RR_A answer :: rest \/
  skip_aliases (Answer (deref h rep)) = RR_AAAA answer :: rest ->
  fst (IPBlacklist s answer) = true ->
  processReply s h rep other (process_of g) = Select other (flip g) rep.
Proof.
  intros Hfirst Hhit. rewrite processReply_first_record.
  destruct Hfirst as [-> | ->]; destruct g; simpl;
    unfold processTrustedAnswer, processUntrustedAnswer;
    by destruct (IPBlacklist s answer) as [[] ?].
Qed.

(** X13.  [normalizeRequest] hands [setUDPSize] the low 16 bits of
    [UDPMaxSize]: two servers whose sizes differ by a multiple of 65536
    normalise every request alike (a size of 65536 counts as 0); with
    [TCPOnly] the size plays no part and only the RD bit is set. *)
Theorem normalizeRequest_size_wraps setUDPSize srv srv' req :
  TCPOnly srv = TCPOnly srv' ->
  ((UDPMaxSize srv - UDPMaxSize srv') mod 65536 = 0)%Z ->
  normalizeRequest setUDPSize srv req = normalizeRequest setUDPSize srv' req /\
  (TCPOnly srv = true ->
   normalizeRequest setUDPSize srv req = setRecursionDesired true req) /\
  (TCPOnly srv = false ->
   exists size, (0 <= size < 65536)%Z /\
     normalizeRequest setUDPSize srv req =
     setUDPSize (setRecursionDesired true req) size).
Proof.
  intros Htcp Hsize. unfold normalizeRequest. rewrite <- Htcp.
  assert ((UDPMaxSize srv mod 65536 = UDPMaxSize srv' mod 65536)%Z) as Hmod.
  { replace (UDPMaxSize srv) with (UDPMaxSize srv' + (UDPMaxSize srv - UDPMaxSize srv'))%Z
      by lia.
    rewrite Z.add_mod, Hsize, Z.add_0_r, Z.mod_mod by lia. done. }
  rewrite Hmod. split; [done|]. split.
  - by intros ->.
  - intros ->. simpl. exists (UDPMaxSize srv' mod 65536)%Z. split; [|done].
    apply Z.mod_pos_bound. lia.
Qed.

(** ** The classifier on particular inputs *)

Lemma blacklisted_is_fallback_only_witness :
  skip_aliases (Answer (deref [demo_req; demo_reply [RR_CNAME "a.example.com."; RR_A ip_foreign]] 1))
    = RR_A ip_foreign :: [] /\
  fst (IPBlacklist srv_ip_blacklist ip_foreign) = true /\
  processReply srv_ip_blacklist
    [demo_req; demo_reply [RR_CNAME "a.example.com."; RR_A ip_foreign]] 1
    (Some Trusted) (process_of Untrusted) = Select (Some Trusted) Trusted 1.
Proof.
  split; [reflexivity|]. split; [reflexivity|].
  apply (blacklisted_is_fallback_only srv_ip_blacklist
           [demo_req; demo_reply [RR_CNAME "a.example.com."; RR_A ip_foreign]] 1
           (Some Trusted) Untrusted ip_foreign []).
  - left. reflexivity.
  - reflexivity.
Defined.

Lemma normalizeRequest_size_wraps_witness :
  ((UDPMaxSize srv_huge_size - UDPMaxSize srv_default) mod 65536 = 0)%Z /\
  normalizeRequest keep_size srv_huge_size demo_req =
  normalizeRequest keep_size srv_default demo_req.
Proof.
  split; [reflexivity|].
  exact (proj1 (normalizeRequest_size_wraps keep_size srv_huge_size srv_default
                  demo_req eq_refl eq_refl)).
Defined.

(** ** The restart loop of [main.go] *)

Lemma gaps_in_nanoseconds :
  main_go.minGap = 100000000%Z /\ main_go.maxGap = 16000000000%Z.
Proof. by vm_compute. Qed.

Lemma double_bounded gap :
  (main_go.minGap <= gap <= main_go.maxGap)%Z ->
  main_go.double gap = Z.min (gap * 2) main_go.maxGap /\
  (main_go.minGap <= main_go.double gap <= main_go.maxGap)%Z.
Proof.
  destruct gaps_in_nanoseconds as [Hmin Hmax]. rewrite Hmin, Hmax. intros Hgap.
  unfold main_go.double. rewrite Hmax.
  assert (main_go.wrap64 (gap * 2) = (gap * 2)%Z) as ->.
  { unfold main_go.wrap64.
    change (2 ^ 63)%Z with 9223372036854775808%Z.
    change (2 ^ 64)%Z with 18446744073709551616%Z.
    rewrite Z.mod_small by lia. lia. }
  destruct (gap * 2 >? 16000000000)%Z eqn:Hcmp; lia.
Qed.

Lemma loop_bounded gap env w :
  (main_go.minGap <= gap <= main_go.maxGap)%Z ->
  w ∈ fst (main_go.loop gap env) -> (main_go.minGap <= w <= main_go.maxGap)%Z.
Proof.
  revert gap. induction env as [|[o wk] env IH]; intros gap Hgap Hw; simpl in Hw.
  { by apply elem_of_nil in Hw. }
  assert (main_go.minGap <= main_go.call o gap <= main_go.maxGap)%Z as Hcall.
  { destruct o; simpl; try done; destruct gaps_in_nanoseconds as [-> ->]; lia. }
  destruct wk.
  - simpl in Hw. apply list_elem_of_singleton in Hw. by subst.
  - destruct (main_go.loop (main_go.double (main_go.call o gap)) env)
      as [waits returned] eqn:Hloop.
    simpl in Hw. apply elem_of_cons in Hw as [-> | Hw]; [done|].
    apply (IH (main_go.double (main_go.call o gap))).
    + by apply double_bounded.
    + by rewrite Hloop.
Qed.

Lemma loop_returned gap env :
  snd (main_go.loop gap env) = true <-> main_go.CtxDone ∈ (snd <$> env).
Proof.
  revert gap. induction env as [|[o wk] env IH]; intros gap; simpl.
  { split; [done|]. by intros ?%elem_of_nil. }
  destruct wk.
  - simpl. split; [intros _; by left|done].
  - destruct (main_go.loop (main_go.double (main_go.call o gap)) env)
      as [waits returned] eqn:Hloop.
    simpl. specialize (IH (main_go.double (main_go.call o gap))).
    rewrite Hloop in IH. simpl in IH. rewrite IH.
    split; [by right|]. by intros [?|?]%elem_of_cons.
Qed.

(** X14.  [runUntilCanceled] never waits less than 100 ms and never more than
    16 s between two runs of [f], whatever [f] does (return, fail or panic);
    it returns exactly when its select takes [ctx.Done()]. *)
Theorem runUntilCanceled_gap_bounds env :
  (forall w, w ∈ fst (main_go.runUntilCanceled env) ->
     (100 * main_go.Millisecond <= w <= 16 * main_go.Second)%Z) /\
  (snd (main_go.runUntilCanceled env) = true <-> main_go.CtxDone ∈ (snd <$> env)).
Proof.
  split; [|apply loop_returned].
  intros w Hw. apply (loop_bounded main_go.minGap env w) in Hw; [|done].
  destruct gaps_in_nanoseconds as [Hmin Hmax]. rewrite Hmin, Hmax in Hw.
  unfold main_go.Millisecond, main_go.Second. lia.
Qed.

Lemma loop_failures gap env :
  (main_go.minGap <= gap <= main_go.maxGap)%Z ->
  Forall (fun it => fst it <> main_go.ReturnsNil /\ snd it = main_go.TimeAfter) env ->
  fst (main_go.loop gap env) =
  (fun i => Z.min (gap * 2 ^ Z.of_nat i) main_go.maxGap) <$> seq 0 (length env).
Proof.
  intros Hgap Henv. revert gap Hgap.
  induction Henv as [|[o wk] env [Ho Hwk] Henv IH]; intros gap Hgap; [done|].
  simpl in Ho, Hwk. subst wk. simpl.
  assert (main_go.call o gap = gap) as -> by (by destruct o).
  destruct (main_go.loop (main_go.double gap) env) as [waits returned] eqn:Hloop.
  destruct (double_bounded gap Hgap) as [Hdouble Hbounds].
  specialize (IH _ Hbounds). rewrite Hloop in IH. simpl in IH. simpl. f_equal.
  - rewrite Z.mul_1_r. lia.
  - rewrite IH, <- fmap_S_seq, <- list_fmap_compose. apply list_fmap_ext.
    intros _ i _. simpl. rewrite Hdouble.
    assert (0 < 2 ^ Z.of_nat i)%Z by (apply Z.pow_pos_nonneg; lia).
    replace (2 ^ Z.of_nat (S i))%Z with (2 * 2 ^ Z.of_nat i)%Z
      by (rewrite Nat2Z.inj_succ, Z.pow_succ_r; lia).
    destruct gaps_in_nanoseconds as [Hmin Hmax]. rewrite Hmin, Hmax in *.
    destruct (Z.min_spec (gap * 2) 16000000000) as [[? ->]|[? ->]].
    + f_equal. lia.
    + rewrite !Z.min_r; nia.
Qed.

Lemma loop_after_success gap env :
  Forall (fun it => fst it <> main_go.ReturnsNil /\ snd it = main_go.TimeAfter) env ->
  fst (main_go.loop gap ((main_go.ReturnsNil, main_go.TimeAfter) :: env)) =
  (fun i => Z.min (main_go.minGap * 2 ^ Z.of_nat i) main_go.maxGap)
  <$> seq 0 (S (length env)).
Proof.
  intros Henv. simpl.
  assert (main_go.minGap <= main_go.minGap <= main_go.maxGap)%Z as Hmin
    by (destruct gaps_in_nanoseconds as [-> ->]; lia).
  destruct (double_bounded _ Hmin) as [Hdouble Hbounds].
  pose proof (loop_failures _ env Hbounds Henv) as Hloop.
  destruct (main_go.loop (main_go.double main_go.minGap) env) as [waits returned].
  simpl in *. f_equal.
  rewrite Hloop, <- fmap_S_seq, <- list_fmap_compose. apply list_fmap_ext.
  intros _ i _. simpl. rewrite Hdouble.
  assert (0 < 2 ^ Z.of_nat i)%Z by (apply Z.pow_pos_nonneg; lia).
  replace (2 ^ Z.of_nat (S i))%Z with (2 * 2 ^ Z.of_nat i)%Z
    by (rewrite Nat2Z.inj_succ, Z.pow_succ_r; lia).
  destruct gaps_in_nanoseconds as [Hmi Hma]. rewrite Hmi, Hma in *.
  rewrite (Z.min_l (100000000 * 2)) by lia. f_equal. lia.
Qed.

Lemma loop_app_waits gap before rest :
  Forall (fun it => snd it = main_go.TimeAfter) before ->
  exists gap', drop (length before) (fst (main_go.loop gap (before ++ rest))) =
               fst (main_go.loop gap' rest).
Proof.
  intros Hbefore. revert gap.
  induction Hbefore as [|[o wk] before Hwk Hbefore IH]; intros gap; [by exists gap|].
  simpl in Hwk. subst wk. simpl.
  destruct (IH (main_go.double (main_go.call o gap))) as [gap' Hgap'].
  exists gap'.
  destruct (main_go.loop (main_go.double (main_go.call o gap)) (before ++ rest)).
  done.
Qed.

(** X15.  The back-off of [runUntilCanceled]: while [f] keeps failing (with
    an error or with a panic) the waits double from 100 ms and stay at
    16 s once they would exceed it; a nil error brings the wait back to
    100 ms, from which the doubling starts again. *)
Theorem runUntilCanceled_backoff before env :
  Forall (fun it => snd it = main_go.TimeAfter) before ->
  Forall (fun it => fst it <> main_go.ReturnsNil /\ snd it = main_go.TimeAfter) env ->
  fst (main_go.runUntilCanceled env) =
    (fun i => Z.min (100 * main_go.Millisecond * 2 ^ Z.of_nat i) (16 * main_go.Second))
    <$> seq 0 (length env) /\
  drop (length before)
    (fst (main_go.runUntilCanceled
            (before ++ (main_go.ReturnsNil, main_go.TimeAfter) :: env))) =
    (fun i => Z.min (100 * main_go.Millisecond * 2 ^ Z.of_nat i) (16 * main_go.Second))
    <$> seq 0 (S (length env)).
Proof.
  intros Hbefore Henv.
  assert (main_go.minGap <= main_go.minGap <= main_go.maxGap)%Z as Hmin
    by (destruct gaps_in_nanoseconds as [-> ->]; lia).
  assert ((100 * main_go.Millisecond)%Z = main_go.minGap) as -> by done.
  assert ((16 * main_go.Second)%Z = main_go.maxGap) as -> by done.
  split.
  - by apply loop_failures.
  - unfold main_go.runUntilCanceled.
    destruct (loop_app_waits main_go.minGap before
                ((main_go.ReturnsNil, main_go.TimeAfter) :: env) Hbefore)
      as [gap' ->].
    by apply loop_after_success.
Qed.

(** ** [trimLocPrefix] *)

Lemma trim_prefix_Some p s r : main_go.trim_prefix p s = Some r <-> s = p +:+ r.
Proof.
  revert s. induction p as [|a p IH]; intros s; simpl.
  { split; [by intros [= ->]|by intros ->]. }
  destruct s as [|b s]; [done|].
  destruct (Ascii.eqb_spec a b) as [->|Hne].
  - rewrite IH. split; [by intros ->|by intros [= ->]].
  - split; [done|]. intros [= ? ?]. by subst.
Qed.

Lemma SplitN2_spec s sep :
  sep <> EmptyString ->
  (main_go.SplitN2 s sep = [s] /\ forall a b, s <> a +:+ sep +:+ b) \/
  (exists a b, main_go.SplitN2 s sep = [a; b] /\ s = a +:+ sep +:+ b /\
     forall a' b', s = a' +:+ sep +:+ b' -> String.length a <= String.length a').
Proof.
  intros Hsep. induction s as [|c s IH]; simpl.
  - destruct (main_go.trim_prefix sep EmptyString) as [r|] eqn:Hp.
    { apply trim_prefix_Some in Hp. by destruct sep. }
    left. split; [done|]. intros [|??] b; [by destruct sep|done].
  - destruct (main_go.trim_prefix sep (String c s)) as [r|] eqn:Hp.
    { apply trim_prefix_Some in Hp. right. exists EmptyString, r.
      split; [done|]. split; [done|]. intros; simpl; lia. }
    assert (forall b, String c s <> sep +:+ b) as Hnot.
    { intros b Hb. apply trim_prefix_Some in Hb. congruence. }
    destruct IH as [[-> Hnone] | (a & b & -> & -> & Hfirst)].
    + left. split; [done|]. intros [|c' a'] b'; simpl; [apply Hnot|].
      intros [= -> Hs]. by apply (Hnone a' b').
    + right. exists (String c a), b. split; [done|]. split; [done|].
      intros [|c' a'] b'; simpl; [intros Hb; by apply Hnot in Hb|].
      intros [= -> Hs]. apply Hfirst in Hs. lia.
Qed.

(** X16.  [trimLocPrefix] cuts a name at the first occurrence of
    ["gochinadns/"] and returns what follows it; a name in which that text
    does not occur comes back unchanged. *)
Theorem trimLocPrefix_spec s :
  (main_go.trimLocPrefix s = s /\ forall a b, s <> a +:+ "gochinadns/" +:+ b) \/
  (exists a, s = a +:+ "gochinadns/" +:+ main_go.trimLocPrefix s /\
     forall a' b', s = a' +:+ "gochinadns/" +:+ b' ->
       String.length a <= String.length a').
Proof.
  unfold main_go.trimLocPrefix.
  destruct (SplitN2_spec s "gochinadns/") as [[-> Hnone] | (a & b & -> & Hs & Hfirst)];
    [done|by left|right; by exists a].
Qed.

(** ** The options of [client.go] *)

Lemma foldl_options (xs : list client_go.Setting) (o : client_go.clientOptions) :
  foldl (fun o f => f o) o (client_go.option_of <$> xs) =
  {| client_go.Timeout := default (client_go.Timeout o) (client_go.last_Timeout xs);
     client_go.UDPMaxSize :=
       default (client_go.UDPMaxSize o) (client_go.last_UDPMaxBytes xs);
     client_go.TCPOnly := default (client_go.TCPOnly o) (client_go.last_TCPOnly xs);
     client_go.Mutation := default (client_go.Mutation o) (client_go.last_Mutation xs) |}.
Proof.
  revert o. induction xs as [|x xs IH] using rev_ind; intros o; [by destruct o|].
  rewrite fmap_app, foldl_app. simpl. rewrite IH.
  unfold client_go.last_Timeout, client_go.last_UDPMaxBytes, client_go.last_TCPOnly,
    client_go.last_Mutation.
  rewrite !omap_app. destruct x; simpl; rewrite ?app_nil_r, ?last_snoc; done.
Qed.

(** X17.  [NewClient] applies its options in order: each field of the
    options ends up with the value of the last [With...] option that names
    it and keeps its default (a timeout of one second, zero, false, false)
    if none does; options for different fields do not disturb each other;
    both DNS clients get the resulting timeout, one for "udp" and one for
    "tcp". *)
Theorem NewClient_last_option_wins (xs : list client_go.Setting) :
  let c := client_go.NewClient (client_go.option_of <$> xs) in
  client_go.Timeout (client_go.options c) =
    default main_go.Second (client_go.last_Timeout xs) /\
  client_go.UDPMaxSize (client_go.options c) =
    default 0%Z (client_go.last_UDPMaxBytes xs) /\
  client_go.TCPOnly (client_go.options c) = default false (client_go.last_TCPOnly xs) /\
  client_go.Mutation (client_go.options c) = default false (client_go.last_Mutation xs) /\
  client_go.UDPCli c =
    {| client_go.cli_Timeout := default main_go.Second (client_go.last_Timeout xs);
       client_go.cli_Net := "udp" |} /\
  client_go.TCPCli c =
    {| client_go.cli_Timeout := default main_go.Second (client_go.last_Timeout xs);
       client_go.cli_Net := "tcp" |}.
Proof.
  simpl. unfold client_go.NewClient. rewrite foldl_options. simpl. done.
Qed.

(** ** [resolverAddrs] *)

Lemma Split_nonempty s : main_go.Split s <> [].
Proof.
  destruct s as [|c s]; simpl; [done|].
  destruct (Ascii.eqb c main_go.comma); [done|]. by destruct (main_go.Split s).
Qed.

Section resolverAddrs_facts.

Variable SplitHostPort : string -> (string * string) + string.
Variable JoinHostPort : string -> string -> string.


Lemma append_cons x (a b : string) : String x a +:+ b = String x (a +:+ b).
Proof. done. Qed.

Lemma app_assoc_string (a b c : string) : (a +:+ b) +:+ c = a +:+ (b +:+ c).
Proof.
  induction a as [|x a IH]; [done|]. rewrite !append_cons. by f_equal.
Qed.

Lemma app_empty_r (a : string) : a +:+ EmptyString = a.
Proof. induction a as [|x a IH]; [done|]. rewrite append_cons. by f_equal. Qed.

Lemma String_loop_join rs i sb :
  main_go.String_loop SplitHostPort (i + Z.of_nat (length rs) - 1) i rs sb =
  sb +:+ main_go.join_commas (main_go.written_for SplitHostPort <$> rs).
Proof.
  revert i sb. induction rs as [|addr rs IH]; intros i sb.
  { simpl. by rewrite app_empty_r. }
  cbn [main_go.String_loop].
  replace (i + Z.of_nat (length (addr :: rs)) - 1)%Z
    with ((i + 1) + Z.of_nat (length rs) - 1)%Z by (simpl length; lia).
  rewrite IH. destruct rs as [|addr' rs].
  - assert ((i <? i + 1 + Z.of_nat (length (@nil string)) - 1)%Z = false) as ->
      by (apply Z.ltb_ge; simpl length; lia).
    cbn [fmap list_fmap main_go.join_commas]. by rewrite app_empty_r.
  - assert ((i <? i + 1 + Z.of_nat (length (addr' :: rs)) - 1)%Z = true) as ->
      by (apply Z.ltb_lt; simpl length; lia).
    cbn [fmap list_fmap main_go.join_commas]. by rewrite !app_assoc_string.
Qed.

Lemma join_Split s : main_go.join_commas (main_go.Split s) = s.
Proof.
  induction s as [|c s IH]; simpl; [done|].
  destruct (Ascii.eqb_spec c main_go.comma) as [->|Hne].
  - pose proof (Split_nonempty s). destruct (main_go.Split s) as [|f fs]; [done|].
    simpl in *. by rewrite IH.
  - pose proof (Split_nonempty s). destruct (main_go.Split s) as [|f fs]; [done|].
    destruct fs; simpl in *; by rewrite <- IH.
Qed.

Lemma String_join rs :
  main_go.String_ SplitHostPort rs =
  main_go.join_commas (main_go.written_for SplitHostPort <$> rs).
Proof.
  unfold main_go.String_.
  pose proof (String_loop_join rs 0 EmptyString) as Hjoin.
  by rewrite Z.add_0_l in Hjoin.
Qed.

Lemma Set_loop_inl fields addrs :
  main_go.Set_loop SplitHostPort JoinHostPort fields = inl addrs <->
  Forall2 (main_go.stored SplitHostPort JoinHostPort) fields addrs.
Proof.
  revert addrs. induction fields as [|field fields IH]; intros addrs; simpl.
  { split; [intros [= <-]; constructor|by intros ->%Forall2_nil_inv_l]. }
  unfold main_go.stored at 1.
  destruct (SplitHostPort field) as [[host port]|err] eqn:Hsplit.
  - destruct (main_go.Set_loop SplitHostPort JoinHostPort fields) as [rest|e].
    + split.
      * intros [= <-]. constructor; [unfold main_go.stored; by rewrite Hsplit|by apply IH].
      * intros (addr & rest' & Hst & Hrest & ->)%Forall2_cons_inv_l.
        unfold main_go.stored in Hst. rewrite Hsplit in Hst. subst addr.
        apply IH in Hrest. by simplify_eq.
    + split; [done|].
      intros (addr & rest' & _ & Hrest & ->)%Forall2_cons_inv_l.
      by apply IH in Hrest.
  - destruct (main_go.Contains err "missing port") eqn:Hmissing.
    + destruct (main_go.Set_loop SplitHostPort JoinHostPort fields) as [rest|e].
      * split.
        -- intros [= <-]. constructor; [unfold main_go.stored; by rewrite Hsplit|by apply IH].
        -- intros (addr & rest' & Hst & Hrest & ->)%Forall2_cons_inv_l.
           unfold main_go.stored in Hst. rewrite Hsplit in Hst. destruct Hst as [_ ->].
           apply IH in Hrest. by simplify_eq.
      * split; [done|].
        intros (addr & rest' & _ & Hrest & ->)%Forall2_cons_inv_l.
        by apply IH in Hrest.
    + split; [done|].
      intros (addr & rest' & Hst & _ & ->)%Forall2_cons_inv_l.
      unfold main_go.stored in Hst. rewrite Hsplit in Hst. destruct Hst as [? _]. congruence.
Qed.

Lemma Set_loop_inr fields err :
  main_go.Set_loop SplitHostPort JoinHostPort fields = inr err ->
  exists field, field ∈ fields /\ SplitHostPort field = inr err /\
    main_go.Contains err "missing port" = false.
Proof.
  induction fields as [|field fields IH]; simpl; [done|].
  destruct (SplitHostPort field) as [[host port]|e] eqn:Hsplit.
  - destruct (main_go.Set_loop SplitHostPort JoinHostPort fields); [done|].
    intros [= ->]. destruct IH as (f & Hf & ?); [done|]. exists f. split; [by right|done].
  - destruct (main_go.Contains e "missing port") eqn:Hmissing.
    + destruct (main_go.Set_loop SplitHostPort JoinHostPort fields); [done|].
      intros [= ->]. destruct IH as (f & Hf & ?); [done|]. exists f.
      split; [by right|done].
    + intros [= ->]. exists field. split; [by left|done].
Qed.

End resolverAddrs_facts.

(** X18.  [Set] takes the fields between the commas of its argument, at
    least one, in order.  It fails, leaving the receiver as it was, exactly
    when [net.SplitHostPort] rejects a field with an error whose text does not
    mention a missing port, and it returns such an error; otherwise it stores
    one address per field: the field itself if it splits, and the field
    joined with port 53 if the port is missing. *)
Theorem Set_stores_fields SplitHostPort JoinHostPort rs s :
  match main_go.Set_ SplitHostPort JoinHostPort rs s with
  | (rs', None) =>
      rs' <> [] /\ length rs' = length (main_go.Split s) /\
      Forall2 (main_go.stored SplitHostPort JoinHostPort) (main_go.Split s) rs'
  | (rs', Some err) =>
      rs' = rs /\
      exists field, field ∈ main_go.Split s /\ SplitHostPort field = inr err /\
        main_go.Contains err "missing port" = false
  end.
Proof.
  unfold main_go.Set_.
  destruct (main_go.Set_loop SplitHostPort JoinHostPort (main_go.Split s))
    as [addrs|err] eqn:Hloop.
  - apply Set_loop_inl in Hloop. pose proof (Forall2_length _ _ _ Hloop) as Hlen.
    split; [|by split]. intros ->. by apply (Split_nonempty s), nil_length_inv.
  - split; [done|]. by apply (Set_loop_inr SplitHostPort JoinHostPort).
Qed.

(** X19.  [String] after [Set] gives the flag value back: if every field
    of [s] either splits into a host and a port other than 53, or lacks a
    port and splits, once joined with port 53, into itself and that port,
    then [Set] accepts [s] and [String] of what it stored is [s]. *)
Theorem Set_String_round_trip SplitHostPort JoinHostPort rs s :
  Forall (fun field =>
            (exists host port, SplitHostPort field = inl (host, port) /\ port <> "53") \/
            (exists err, SplitHostPort field = inr err /\
               main_go.Contains err "missing port" = true /\
               SplitHostPort (JoinHostPort field "53") = inl (field, "53")))
         (main_go.Split s) ->
  exists rs', main_go.Set_ SplitHostPort JoinHostPort rs s = (rs', None) /\
    main_go.String_ SplitHostPort rs' = s.
Proof.
  intros Hfields.
  assert (exists rs',
            main_go.Set_loop SplitHostPort JoinHostPort (main_go.Split s) = inl rs' /\
            main_go.written_for SplitHostPort <$> rs' = main_go.Split s)
    as (rs' & Hset & Hwritten).
  { induction Hfields as [|field fields Hfield _ (rest & Hrest & Hw)]; simpl.
    { by exists []. }
    rewrite Hrest.
    destruct Hfield as [(host & port & Hsplit & Hport) | (err & Hsplit & Hmiss & Hjoin)];
      rewrite Hsplit.
    - exists (field :: rest). split; [done|]. rewrite fmap_cons, Hw. f_equal.
      unfold main_go.written_for. rewrite Hsplit.
      by apply String.eqb_neq in Hport as ->.
    - rewrite Hmiss. exists (JoinHostPort field "53" :: rest). split; [done|].
      rewrite fmap_cons, Hw. f_equal.
      unfold main_go.written_for. by rewrite Hjoin. }
  exists rs'. unfold main_go.Set_. rewrite Hset. split; [done|].
  by rewrite String_join, Hwritten, join_Split.
Qed.

(** ** [main.go] on particular inputs *)

Lemma runUntilCanceled_backoff_witness :
  fst (main_go.runUntilCanceled (replicate 9 (main_go.ReturnsErr, main_go.TimeAfter))) =
    [100000000; 200000000; 400000000; 800000000; 1600000000; 3200000000;
     6400000000; 12800000000; 16000000000]%Z /\
  drop 1 (fst (main_go.runUntilCanceled demo_runs)) =
    [100000000; 200000000; 400000000]%Z.
Proof.
  assert (Forall (fun it : main_go.Outcome * main_go.Wake => snd it = main_go.TimeAfter)
            [(main_go.ReturnsErr, main_go.TimeAfter)]) as H1
    by (repeat constructor).
  assert (Forall (fun it : main_go.Outcome * main_go.Wake =>
                    fst it <> main_go.ReturnsNil /\ snd it = main_go.TimeAfter)
            (replicate 9 (main_go.ReturnsErr, main_go.TimeAfter))) as H2
    by (repeat constructor; discriminate).
  assert (Forall (fun it : main_go.Outcome * main_go.Wake =>
                    fst it <> main_go.ReturnsNil /\ snd it = main_go.TimeAfter)
            [(main_go.Panics, main_go.TimeAfter); (main_go.ReturnsErr, main_go.TimeAfter)])
    as H3 by (repeat constructor; discriminate).
  split.
  - exact (proj1 (runUntilCanceled_backoff _ _ H1 H2)).
  - exact (proj2 (runUntilCanceled_backoff _ _ H1 H3)).
Defined.

Lemma Set_String_round_trip_witness :
  exists rs',
    main_go.Set_ demo_SplitHostPort demo_JoinHostPort [] "1.1.1.1,8.8.8.8:5353" =
      (rs', None) /\
    main_go.String_ demo_SplitHostPort rs' = "1.1.1.1,8.8.8.8:5353"%string.
Proof.
  apply (Set_String_round_trip demo_SplitHostPort demo_JoinHostPort []
           "1.1.1.1,8.8.8.8:5353").
  change (main_go.Split "1.1.1.1,8.8.8.8:5353")
    with ["1.1.1.1"; "8.8.8.8:5353"]%string.
  apply Forall_cons_2; [|apply Forall_cons_2; [|apply Forall_nil_2]].
  - right. exists "address 1.1.1.1: missing port in address"%string.
    split; [reflexivity|]. split; reflexivity.
  - left. exists "8.8.8.8"%string, "5353"%string. split; [reflexivity|discriminate].
Defined.
(** The run that ends in the deadlock: fifteen steps out of at most 37. *)
Lemma runs_are_bounded_witness :
  exists s, run keep_size srv_default sched_deadlock (init demo_req) = Some s /\
    length sched_deadlock + work srv_default s <= work srv_default (init demo_req) /\
    work srv_default (init demo_req) = 37.
Proof.
  assert (exists s, run keep_size srv_default sched_deadlock (init demo_req) = Some s)
    as [s Hs] by (eexists; vm_compute; reflexivity).
  exists s. split; [exact Hs|].
  pose proof (runs_are_bounded keep_size srv_default demo_req sched_deadlock s Hs)
    as (Hlen & Hinit & _).
  split; [exact Hlen|exact Hinit].
Defined.
(** The state the deadlock schedule ends in has no step left. *)
Lemma deadlock_has_no_step :
  exists s, run keep_size srv_default sched_deadlock (init demo_req) = Some s /\
    panicked s = false /\ serve s <> SReturned /\
    forall l, step keep_size srv_default l s = None.
Proof.
  eexists. split; [vm_compute; reflexivity|].
  split; [reflexivity|]. split; [discriminate|].
  intros l. destruct l as [ | g | | | g | g | g | g | g | g | g i arg' r | g i];
    try destruct g; try reflexivity;
    destruct i as [|[|i]]; reflexivity.
Qed.

(** That state is a jam of the untrusted class, or of the trusted one. *)
Lemma hang_is_a_jam_witness :
  exists s, reachable keep_size srv_default demo_req s /\
    panicked s = false /\ serve s <> SReturned /\
    (serve s = SSelect \/
     exists other next fallback, serve s = SProcess other next fallback) /\
    exists g, jammed srv_default g s.
Proof.
  destruct deadlock_has_no_step as (s & Hrun & Hp & Hret & Hstuck).
  exists s. assert (reachable keep_size srv_default demo_req s) as Hr
    by (by exists sched_deadlock).
  split; [exact Hr|]. split; [exact Hp|]. split; [exact Hret|].
  exact (hang_is_a_jam keep_size srv_default demo_req s Hr Hp Hret Hstuck).
Defined.
